(** * Outbound delivery dispatcher and gateway call client

    A shallow embedding of [src/infra/outbound/deliver.ts] (payload
    normalisation and the per-provider delivery loop) and of the
    gateway call client ([callGateway]): target resolution and the
    single-settlement promise. *)

From Stdlib Require Import Ascii String DecimalString.
From Stdlib Require Import List Bool Arith ZArith NArith Lia.
Import ListNotations.

Set Implicit Arguments.

(** ** JavaScript strings

    A JavaScript string is a sequence of UTF-16 code units.  Literals of
    the source are written with [lit]. *)

Module Js.

Definition JsString := list N.

Definition lit (s : string) : JsString :=
  map N_of_ascii (list_ascii_of_string s).

Definition eqb (a b : JsString) : bool :=
  if list_eq_dec N.eq_dec a b then true else false.

(** Truthiness of a string: every string but the empty one. *)
Definition truthy (s : JsString) : bool :=
  match s with [] => false | _ :: _ => true end.

(** Truthiness of [string | undefined]. *)
Definition truthyOpt (o : option JsString) : bool :=
  match o with Some s => truthy s | None => false end.

(** [a || b] on [string | undefined] operands. *)
Definition orElse (a b : option JsString) : option JsString :=
  if truthyOpt a then a else b.

(** WhiteSpace and LineTerminator code points of ECMAScript, the ones
    [String.prototype.trim] strips. *)
Definition isWhiteSpace (c : N) : bool :=
  ((9 <=? c) && (c <=? 13) || (c =? 32) || (c =? 160) || (c =? 5760)
   || (8192 <=? c) && (c <=? 8202) || (c =? 8232) || (c =? 8233)
   || (c =? 8239) || (c =? 8287) || (c =? 12288) || (c =? 65279))%N.

Fixpoint trimStart (s : JsString) : JsString :=
  match s with
  | [] => []
  | c :: r => if isWhiteSpace c then trimStart r else s
  end.

Definition trimEnd (s : JsString) : JsString := rev (trimStart (rev s)).

Definition trim (s : JsString) : JsString := trimEnd (trimStart s).

(** Decimal rendering of a non-negative integer, as a template literal
    prints a number below 10^21; gateway ports and timeouts in
    milliseconds are such numbers. *)
Definition ofNumber (n : N) : JsString :=
  lit (NilEmpty.string_of_uint (N.to_uint n)).

(** [parts.join(sep)] *)
Fixpoint join (sep : JsString) (parts : list JsString) : JsString :=
  match parts with
  | [] => []
  | [p] => p
  | p :: rest => p ++ sep ++ join sep rest
  end.

(** A string is blank when it consists of white space only; [trim]
    empties exactly the blank strings. *)
Definition blank (s : JsString) : bool := forallb isWhiteSpace s.

End Js.

Import Js.

(** ** Payload normaliser ([normalizeOutboundPayloads]) *)

(** [ReplyPayload]: every field optional. *)
Record ReplyPayload := {
  rp_text : option JsString;
  rp_mediaUrl : option JsString;
  rp_mediaUrls : option (list JsString)
}.

Record NormalizedOutboundPayload := {
  text : JsString;
  mediaUrls : list JsString
}.

(** The [.map] callback. *)
Definition normalizeOne (payload : ReplyPayload) : NormalizedOutboundPayload :=
  {| text := match rp_text payload with Some t => t | None => [] end;
     mediaUrls :=
       match rp_mediaUrls payload with
       | Some urls => urls
       | None =>
           if truthyOpt (rp_mediaUrl payload)
           then match rp_mediaUrl payload with Some u => [u] | None => [] end
           else []
       end |}.

(** The [.filter] callback: [payload.text || payload.mediaUrls.length > 0]. *)
Definition keepNormalized (payload : NormalizedOutboundPayload) : bool :=
  truthy (text payload) || (0 <? length (mediaUrls payload)).

Definition normalizeOutboundPayloads (payloads : list ReplyPayload)
  : list NormalizedOutboundPayload :=
  filter keepNormalized (map normalizeOne payloads).

(** The filter the specification words: an entry goes when its trimmed
    text is empty and it has no media. *)
Definition keepNormalized_spec (payload : NormalizedOutboundPayload) : bool :=
  negb (blank (text payload) && (length (mediaUrls payload) =? 0)).

Definition normalizeOutboundPayloads_spec (payloads : list ReplyPayload)
  : list NormalizedOutboundPayload :=
  filter keepNormalized_spec (map normalizeOne payloads).

(** ** Outbound dispatcher ([deliverOutboundPayloads]) *)

(** Modelled from the spec: the [OutboundProvider] union of
    [./targets.js], whose declaration is not part of the sources; the
    six variants are those of [OutboundDeliveryResult], and ["none"] is
    the one [deliverOutboundPayloads] excludes by type. *)
Inductive OutboundProvider :=
  whatsapp | telegram | discord | slack | signal | imessage | none.

Definition deliverable (p : OutboundProvider) : bool :=
  match p with none => false | _ => true end.

Definition providers : list OutboundProvider :=
  [whatsapp; telegram; discord; slack; signal; imessage].

Definition provider_eqb (a b : OutboundProvider) : bool :=
  match a, b with
  | whatsapp, whatsapp | telegram, telegram | discord, discord
  | slack, slack | signal, signal | imessage, imessage | none, none => true
  | _, _ => false
  end.

(** The two splitters of [auto-reply/chunk.js], by name. *)
Inductive Chunker := chunkMarkdownText | chunkText.

Definition resolveChunker (provider : OutboundProvider) : option Chunker :=
  match provider with
  | telegram => Some chunkMarkdownText
  | whatsapp => Some chunkText
  | signal => Some chunkText
  | imessage => Some chunkText
  | _ => None
  end.

Definition MB : Z := 1024 * 1024.

(** The configuration sections read here.  Numbers of the configuration
    are integers; a number is truthy when it is not zero. *)
Record MediaSection := { mediaMaxMb : option Z }.

Record GatewayRemote := {
  remote_url : option JsString;
  remote_token : option JsString;
  remote_password : option JsString
}.

Record GatewayAuth := {
  auth_token : option JsString;
  auth_password : option JsString
}.

Record GatewayConfig := {
  gw_mode : option JsString;
  gw_remote : option GatewayRemote;
  gw_auth : option GatewayAuth;
  gw_bind : option JsString
}.

Record ClawdbotConfig (Other : Type) := {
  cfg_signal : option MediaSection;
  cfg_imessage : option MediaSection;
  cfg_agent : option MediaSection;
  cfg_gateway : option GatewayConfig;
  cfg_other : Other
}.

(** [section?.mediaMaxMb] when truthy. *)
Definition truthyMaxMb (section : option MediaSection) : option Z :=
  match section with
  | Some sec =>
      match mediaMaxMb sec with
      | Some v => if (v =? 0)%Z then None else Some v
      | None => None
      end
  | None => None
  end.

Definition resolveSignalMaxBytes {Other} (cfg : ClawdbotConfig Other)
  : option Z :=
  match truthyMaxMb (cfg_signal cfg) with
  | Some v => Some (v * MB)%Z
  | None =>
      match truthyMaxMb (cfg_agent cfg) with
      | Some v => Some (v * MB)%Z
      | None => None
      end
  end.

Definition resolveIMessageMaxBytes {Other} (cfg : ClawdbotConfig Other)
  : option Z :=
  match truthyMaxMb (cfg_imessage cfg) with
  | Some v => Some (v * MB)%Z
  | None =>
      match truthyMaxMb (cfg_agent cfg) with
      | Some v => Some (v * MB)%Z
      | None => None
      end
  end.

(** The byte ceiling as the specification words it: the provider's
    value when present, else the agent-wide one when present. *)
Definition presentMaxMb (section : option MediaSection) : option Z :=
  match section with Some sec => mediaMaxMb sec | None => None end.

Definition maxBytes_spec (own agent : option MediaSection) : option Z :=
  match presentMaxMb own with
  | Some v => Some (v * 1048576)%Z
  | None =>
      match presentMaxMb agent with
      | Some v => Some (v * 1048576)%Z
      | None => None
      end
  end.

(** The same, a value of zero counting as absent. *)
Definition maxBytes_nonzero (own agent : option MediaSection) : option Z :=
  match truthyMaxMb own with
  | Some v => Some (v * 1048576)%Z
  | None =>
      match truthyMaxMb agent with
      | Some v => Some (v * 1048576)%Z
      | None => None
      end
  end.

(** The options object of a send call; a key that is not written and a
    key written with [undefined] are both [None]. *)
Record SendOptions := {
  verbose : option bool;
  mediaUrl : option JsString;
  token : option JsString;
  maxBytes : option Z
}.

Definition noOptions : SendOptions :=
  {| verbose := None; mediaUrl := None; token := None; maxBytes := None |}.

Section Dispatcher.

(** [World] is whatever the send functions and callbacks act on, [Exn]
    the values they throw, [SendResult] the identifiers a send returns. *)
Variables (World Exn SendResult Other : Type).

Inductive Completion (A : Type) :=
| Normal (a : A)
| Throw (e : Exn).

Arguments Throw {A} e.

(** An awaited send function: [(to, text, opts?) => Promise<result>]. *)
Definition SendFn :=
  JsString -> JsString -> option SendOptions ->
  World -> World * Completion SendResult.

Record OutboundSendDeps := {
  sendWhatsApp : option SendFn;
  sendTelegram : option SendFn;
  sendDiscord : option SendFn;
  sendSlack : option SendFn;
  sendSignal : option SendFn;
  sendIMessage : option SendFn
}.

(** What [deliver.ts] imports from modules outside the sources. *)
Record Externals := {
  applyChunker : Chunker -> JsString -> Z -> list JsString;
  resolveTextChunkLimit :
    ClawdbotConfig Other -> OutboundProvider -> option Z;
  resolveTelegramToken : ClawdbotConfig Other -> JsString;
  sendMessageWhatsApp : SendFn;
  sendMessageTelegram : SendFn;
  sendMessageDiscord : SendFn;
  sendMessageSlack : SendFn;
  sendMessageSignal : SendFn;
  sendMessageIMessage : SendFn
}.

(** The object literal [{ provider: "<tag>", ...res }]: [provider] is
    the tag the code writes, [identifiers] the send result spread after
    it.  A [provider] key of the send result itself, should it have
    one, is part of [identifiers] and is the one a reader of the object
    gets; see [providerRead]. *)
Record OutboundDeliveryResult := {
  provider : OutboundProvider;
  identifiers : SendResult
}.

(** The two callbacks receive the normalised payload and return or
    throw; they are taken not to write to the payload they are given. *)
Record Params := {
  cfg : ClawdbotConfig Other;
  p_provider : OutboundProvider;
  to : JsString;
  payloads : list ReplyPayload;
  deps : option OutboundSendDeps;
  bestEffort : option bool;
  onError :
    option (Exn -> NormalizedOutboundPayload ->
            World -> World * Completion unit);
  onPayload :
    option (NormalizedOutboundPayload -> World -> World * Completion unit)
}.

(** One call of a send function, as the outside sees it. *)
Record SendCall := {
  call_fn : OutboundProvider;
  call_to : JsString;
  call_text : JsString;
  call_opts : option SendOptions
}.

Inductive Event :=
| EvSend (c : SendCall) (r : Completion SendResult)
| EvOnPayload (p : NormalizedOutboundPayload) (r : Completion unit)
| EvOnError (e : Exn) (p : NormalizedOutboundPayload) (r : Completion unit).

(** The state of one delivery call: the world, the [results] array, and
    the calls made so far (kept for the statements only). *)
Record DState := {
  world : World;
  results : list OutboundDeliveryResult;
  trace : list Event
}.

Definition M (A : Type) := DState -> DState * Completion A.

Definition ret {A} (a : A) : M A := fun s => (s, Normal a).

Definition bind {A B} (m : M A) (k : A -> M B) : M B :=
  fun s =>
    match m s with
    | (s1, Normal a) => k a s1
    | (s1, Throw e) => (s1, Throw e)
    end.

Definition tryCatch {A} (body : M A) (handler : Exn -> M A) : M A :=
  fun s =>
    match body s with
    | (s1, Normal a) => (s1, Normal a)
    | (s1, Throw e) => handler e s1
    end.

Definition throw {A} (e : Exn) : M A := fun s => (s, Throw e).

Fixpoint forEach {A} (body : A -> M unit) (xs : list A) : M unit :=
  match xs with
  | [] => ret tt
  | x :: rest => bind (body x) (fun _ => forEach body rest)
  end.

(** *** Reading a trace *)

(** The results the successful sends of a trace stand for. *)
Definition resultsOf (evs : list Event) : list OutboundDeliveryResult :=
  flat_map
    (fun ev =>
       match ev with
       | EvSend c (Normal res) =>
           [{| provider := call_fn c; identifiers := res |}]
       | _ => []
       end) evs.

Definition sendCallsOf (evs : list Event) : list SendCall :=
  flat_map (fun ev => match ev with EvSend c _ => [c] | _ => [] end) evs.

Definition onErrorCallsOf (evs : list Event)
  : list (Exn * NormalizedOutboundPayload) :=
  flat_map
    (fun ev => match ev with EvOnError e p _ => [(e, p)] | _ => [] end) evs.

(** What a failing step of the [try] block throws. *)
Definition failureOf (ev : Event) : option Exn :=
  match ev with
  | EvSend _ (Throw e) => Some e
  | EvOnPayload _ (Throw e) => Some e
  | _ => None
  end.

(** A send or an [onPayload] call that returned. *)
Definition quietEvent (ev : Event) : bool :=
  match ev with
  | EvSend _ (Normal _) => true
  | EvOnPayload _ (Normal _) => true
  | _ => false
  end.

Definition quiet (evs : list Event) : bool := forallb quietEvent evs.

(** The events of a [try] block that ended with [r]: all quiet when it
    completed, all quiet up to the throwing one when it threw. *)
Definition Clean {A} (evs : list Event) (r : Completion A) : Prop :=
  match r with
  | Normal _ => quiet evs = true
  | Throw e =>
      exists pre fail,
        evs = pre ++ [fail] /\ quiet pre = true /\ failureOf fail = Some e
  end.

(** The events of one loop iteration on [p] under best effort: either
    quiet, or quiet up to one failing step that is followed by the one
    [onError] call, on that step's error and on [p]. *)
Inductive Segment (p : NormalizedOutboundPayload) : list Event -> Prop :=
| seg_delivered evs :
    quiet evs = true -> Segment p evs
| seg_failed pre fail e r :
    quiet pre = true -> failureOf fail = Some e ->
    Segment p (pre ++ [fail; EvOnError e p r]).

(** Every run of [m] appends some events to the trace, pushes the
    results of the successful sends among them and ends as [Clean]
    says; [P] holds of every send call it makes. *)
Definition Emits {A} (P : SendCall -> Prop) (m : M A) : Prop :=
  forall s, exists evs,
    trace (fst (m s)) = trace s ++ evs
    /\ results (fst (m s)) = results s ++ resultsOf evs
    /\ Forall P (sendCallsOf evs)
    /\ Clean evs (snd (m s)).

(** The weaker reading that holds of every computation, the [catch]
    block included: the results pushed are those of the successful
    sends, and [P] holds of every send call made. *)
Definition Calls {A} (P : SendCall -> Prop) (m : M A) : Prop :=
  forall s, exists evs,
    trace (fst (m s)) = trace s ++ evs
    /\ results (fst (m s)) = results s ++ resultsOf evs
    /\ Forall P (sendCallsOf evs).

Notation "x <- m ;; k" := (bind m (fun x => k))
  (at level 61, m at next level, right associativity).
Notation "m ;;; k" := (bind m (fun _ => k))
  (at level 61, right associativity).

Variable ext : Externals.
Variable params : Params.

(** [params.deps?.sendX ?? sendMessageX] *)
Definition dep (pick : OutboundSendDeps -> option SendFn) (dflt : SendFn)
  : SendFn :=
  match deps params with
  | Some d => match pick d with Some f => f | None => dflt end
  | None => dflt
  end.

(** The constants of one call. *)
Definition chunker : option Chunker := resolveChunker (p_provider params).

Definition textLimit : option Z :=
  match chunker with
  | Some _ => resolveTextChunkLimit ext (cfg params) (p_provider params)
  | None => None
  end.

Definition telegramToken : option JsString :=
  match p_provider params with
  | telegram =>
      let t := resolveTelegramToken ext (cfg params) in
      if truthy t then Some t else None
  | _ => None
  end.

Definition signalMaxBytes : option Z :=
  match p_provider params with
  | signal => resolveSignalMaxBytes (cfg params)
  | _ => None
  end.

Definition imessageMaxBytes : option Z :=
  match p_provider params with
  | imessage => resolveIMessageMaxBytes (cfg params)
  | _ => None
  end.

(** [await deps.sendX(to, text, opts)]: the call is made on the world
    and recorded. *)
Definition callSend (fn : OutboundProvider) (f : SendFn)
    (text : JsString) (opts : option SendOptions) : M SendResult :=
  fun s =>
    let (w, r) := f (to params) text opts (world s) in
    ({| world := w; results := results s;
        trace := trace s ++
          [EvSend {| call_fn := fn; call_to := to params;
                     call_text := text; call_opts := opts |} r] |}, r).

(** [results.push({ provider, ...res })] *)
Definition pushResult (fn : OutboundProvider) (res : SendResult) : M unit :=
  fun s =>
    ({| world := world s;
        results := results s ++ [{| provider := fn; identifiers := res |}];
        trace := trace s |}, Normal tt).

Definition options (verbose : option bool) (mediaUrl token : option JsString)
    (maxBytes : option Z) : option SendOptions :=
  Some {| verbose := verbose; mediaUrl := mediaUrl;
          token := token; maxBytes := maxBytes |}.

Definition sendText (text : JsString) : M unit :=
  match p_provider params with
  | whatsapp =>
      res <- callSend whatsapp (dep sendWhatsApp (sendMessageWhatsApp ext))
               text (options (Some false) None None None) ;;
      pushResult whatsapp res
  | telegram =>
      res <- callSend telegram (dep sendTelegram (sendMessageTelegram ext))
               text (options (Some false) None telegramToken None) ;;
      pushResult telegram res
  | signal =>
      res <- callSend signal (dep sendSignal (sendMessageSignal ext))
               text (options None None None signalMaxBytes) ;;
      pushResult signal res
  | imessage =>
      res <- callSend imessage (dep sendIMessage (sendMessageIMessage ext))
               text (options None None None imessageMaxBytes) ;;
      pushResult imessage res
  | slack =>
      res <- callSend slack (dep sendSlack (sendMessageSlack ext))
               text None ;;
      pushResult slack res
  | _ =>
      res <- callSend discord (dep sendDiscord (sendMessageDiscord ext))
               text (options (Some false) None None None) ;;
      pushResult discord res
  end.

Definition sendMedia (caption mediaUrl : JsString) : M unit :=
  match p_provider params with
  | whatsapp =>
      res <- callSend whatsapp (dep sendWhatsApp (sendMessageWhatsApp ext))
               caption (options (Some false) (Some mediaUrl) None None) ;;
      pushResult whatsapp res
  | telegram =>
      res <- callSend telegram (dep sendTelegram (sendMessageTelegram ext))
               caption
               (options (Some false) (Some mediaUrl) telegramToken None) ;;
      pushResult telegram res
  | signal =>
      res <- callSend signal (dep sendSignal (sendMessageSignal ext))
               caption (options None (Some mediaUrl) None signalMaxBytes) ;;
      pushResult signal res
  | imessage =>
      res <- callSend imessage (dep sendIMessage (sendMessageIMessage ext))
               caption (options None (Some mediaUrl) None imessageMaxBytes) ;;
      pushResult imessage res
  | slack =>
      res <- callSend slack (dep sendSlack (sendMessageSlack ext))
               caption (options None (Some mediaUrl) None None) ;;
      pushResult slack res
  | _ =>
      res <- callSend discord (dep sendDiscord (sendMessageDiscord ext))
               caption (options (Some false) (Some mediaUrl) None None) ;;
      pushResult discord res
  end.

(** The same two functions in one table: the branch [provider] takes
    (discord is the last one), its send function, and the options of a
    text send ([url] absent) or a media send. *)
Definition branch : OutboundProvider :=
  match p_provider params with
  | none => discord
  | p => p
  end.

Definition sendFnOf (fn : OutboundProvider) : SendFn :=
  match fn with
  | whatsapp => dep sendWhatsApp (sendMessageWhatsApp ext)
  | telegram => dep sendTelegram (sendMessageTelegram ext)
  | signal => dep sendSignal (sendMessageSignal ext)
  | imessage => dep sendIMessage (sendMessageIMessage ext)
  | slack => dep sendSlack (sendMessageSlack ext)
  | _ => dep sendDiscord (sendMessageDiscord ext)
  end.

Definition sendOptions (fn : OutboundProvider) (url : option JsString)
  : option SendOptions :=
  match fn with
  | whatsapp => options (Some false) url None None
  | telegram => options (Some false) url telegramToken None
  | signal => options None url None signalMaxBytes
  | imessage => options None url None imessageMaxBytes
  | slack =>
      match url with
      | Some _ => options None url None None
      | None => None
      end
  | _ => options (Some false) url None None
  end.

(** One awaited send of [text], with or without a media URL. *)
Definition send (text : JsString) (url : option JsString) : M unit :=
  res <- callSend branch (sendFnOf branch) text (sendOptions branch url) ;;
  pushResult branch res.

(** The call [send text url] makes. *)
Definition sendCall (text : JsString) (url : option JsString) : SendCall :=
  {| call_fn := branch; call_to := to params; call_text := text;
     call_opts := sendOptions branch url |}.

(** The media calls of a payload as the specification lists them: one
    per URL, in order, the first with the text, the others with the
    empty caption. *)
Definition mediaCalls (payload : NormalizedOutboundPayload) : list SendCall :=
  match mediaUrls payload with
  | [] => []
  | url :: rest =>
      sendCall (text payload) (Some url)
        :: map (fun u => sendCall [] (Some u)) rest
  end.

(** The media URL a call carries, if any. *)
Definition urlOf (c : SendCall) : option JsString :=
  match call_opts c with
  | Some o => mediaUrl o
  | None => None
  end.

(** The byte ceiling a call carries, if any. *)
Definition ceilingOf (c : SendCall) : option Z :=
  match call_opts c with
  | Some o => maxBytes o
  | None => None
  end.

Definition sendTextChunks (text : JsString) : M unit :=
  match chunker, textLimit with
  | Some c, Some limit => forEach sendText (applyChunker ext c text limit)
  | _, _ => sendText text
  end.

(** The loop over [payload.mediaUrls] with its [first] flag. *)
Fixpoint sendMediaLoop (text : JsString) (first : bool)
    (urls : list JsString) : M unit :=
  match urls with
  | [] => ret tt
  | url :: rest =>
      let caption := if first then text else [] in
      sendMedia caption url ;;; sendMediaLoop text false rest
  end.

(** [params.onPayload?.(payload)] *)
Definition callOnPayload (payload : NormalizedOutboundPayload) : M unit :=
  match onPayload params with
  | None => ret tt
  | Some f => fun s =>
      let (w, r) := f payload (world s) in
      ({| world := w; results := results s;
          trace := trace s ++ [EvOnPayload payload r] |}, r)
  end.

(** [params.onError?.(err, payload)] *)
Definition callOnError (err : Exn) (payload : NormalizedOutboundPayload)
  : M unit :=
  match onError params with
  | None => ret tt
  | Some f => fun s =>
      let (w, r) := f err payload (world s) in
      ({| world := w; results := results s;
          trace := trace s ++ [EvOnError err payload r] |}, r)
  end.

(** The body of the [try] block. *)
Definition tryBody (payload : NormalizedOutboundPayload) : M unit :=
  callOnPayload payload ;;;
  match mediaUrls payload with
  | [] => sendTextChunks (text payload)
  | urls => sendMediaLoop (text payload) true urls
  end.

(** The [catch] block; [!params.bestEffort] holds when the flag is
    absent. *)
Definition isBestEffort : bool :=
  match bestEffort params with Some b => b | None => false end.

Definition catchBody (payload : NormalizedOutboundPayload) (err : Exn)
  : M unit :=
  if isBestEffort then callOnError err payload else throw err.

(** One iteration of the loop over the normalised payloads. *)
Definition deliverOne (payload : NormalizedOutboundPayload) : M unit :=
  tryCatch (tryBody payload) (catchBody payload).

Definition deliverLoop (ps : list NormalizedOutboundPayload) : M unit :=
  forEach deliverOne ps.

Definition initial (w : World) : DState :=
  {| world := w; results := []; trace := [] |}.

(** The whole call, from a world: the final state, and either the
    returned list or the error the promise rejects with. *)
Definition deliverOutboundPayloads (w : World)
  : DState * Completion (list OutboundDeliveryResult) :=
  match deliverLoop (normalizeOutboundPayloads (payloads params)) (initial w)
  with
  | (s, Normal _) => (s, Normal (results s))
  | (s, Throw e) => (s, Throw e)
  end.

(** Assumptions on the collaborators: a send function, or a callback,
    that never throws. *)
Definition SendsReturn : Prop :=
  forall text opts w, exists w' res,
    sendFnOf branch (to params) text opts w = (w', Normal res).

Definition OnPayloadReturns : Prop :=
  forall f, onPayload params = Some f ->
  forall p w, snd (f p w) = Normal tt.

Definition OnErrorReturns : Prop :=
  forall f, onError params = Some f ->
  forall e p w, snd (f e p w) = Normal tt.

End Dispatcher.

Arguments Normal {Exn A} a.
Arguments Throw {Exn A} e.
Arguments initial {World Exn SendResult} w.
Arguments EvSend {Exn SendResult} c r.
Arguments EvOnPayload {Exn SendResult} p r.
Arguments EvOnError {Exn SendResult} e p r.

(** The same collaborators with other splitters and another limit. *)
Definition withChunking {World Exn SendResult Other}
    (ext : Externals World Exn SendResult Other)
    (apply : Chunker -> JsString -> Z -> list JsString)
    (limit : ClawdbotConfig Other -> OutboundProvider -> option Z)
  : Externals World Exn SendResult Other :=
  {| applyChunker := apply;
     resolveTextChunkLimit := limit;
     resolveTelegramToken := resolveTelegramToken ext;
     sendMessageWhatsApp := sendMessageWhatsApp ext;
     sendMessageTelegram := sendMessageTelegram ext;
     sendMessageDiscord := sendMessageDiscord ext;
     sendMessageSlack := sendMessageSlack ext;
     sendMessageSignal := sendMessageSignal ext;
     sendMessageIMessage := sendMessageIMessage ext |}.

(** ** Gateway call client ([callGateway]) *)

Module Gateway.

(** The fields of [CallGatewayOptions] that [callGateway] itself reads;
    the remaining ones go to the client unchanged.  [timeoutMs] is a
    whole, non-negative number of milliseconds. *)
Record CallGatewayOptions := {
  url : option JsString;
  token : option JsString;
  password : option JsString;
  timeoutMs : option N
}.

(** What the call reads from outside its arguments: [loadConfig()],
    [resolveGatewayPort(config)], [pickPrimaryTailnetIPv4()] and the two
    environment variables. *)
Record Ambient := {
  gateway : option GatewayConfig;
  localPort : N;
  tailnetIPv4 : option JsString;
  CLAWDBOT_GATEWAY_TOKEN : option JsString;
  CLAWDBOT_GATEWAY_PASSWORD : option JsString
}.

(** [typeof v === "string" && v.trim().length > 0 ? v.trim() : undefined] *)
Definition trimmed (v : option JsString) : option JsString :=
  match v with
  | Some s => if 0 <? length (trim s) then Some (trim s) else None
  | None => None
  end.

Section Resolve.

Variable opts : CallGatewayOptions.
Variable amb : Ambient.

Definition isRemoteMode : bool :=
  match gateway amb with
  | Some g =>
      match gw_mode g with
      | Some m => Js.eqb m (lit "remote")
      | None => false
      end
  | None => false
  end.

Definition remote : option GatewayRemote :=
  if isRemoteMode
  then match gateway amb with Some g => gw_remote g | None => None end
  else None.

Definition authToken : option JsString :=
  match gateway amb with
  | Some g => match gw_auth g with Some a => auth_token a | None => None end
  | None => None
  end.

Definition authPassword : option JsString :=
  match gateway amb with
  | Some g =>
      match gw_auth g with Some a => auth_password a | None => None end
  | None => None
  end.

Definition bindMode : JsString :=
  match gateway amb with
  | Some g =>
      match gw_bind g with Some b => b | None => lit "loopback" end
  | None => lit "loopback"
  end.

Definition preferTailnet : bool :=
  Js.eqb bindMode (lit "tailnet")
  || (Js.eqb bindMode (lit "auto") && truthyOpt (tailnetIPv4 amb)).

Definition loopbackUrl : JsString :=
  lit "ws://127.0.0.1:" ++ ofNumber (localPort amb).

Definition tailnetUrl (ip : JsString) : JsString :=
  lit "ws://" ++ ip ++ lit ":" ++ ofNumber (localPort amb).

(** [preferTailnet && tailnetIPv4 ? ... : ...] *)
Definition localUrl : JsString :=
  match tailnetIPv4 amb with
  | Some ip => if preferTailnet && truthy ip then tailnetUrl ip
               else loopbackUrl
  | None => loopbackUrl
  end.

Definition urlOverride : option JsString := trimmed (url opts).

Definition remoteUrl : option JsString :=
  trimmed (match remote with Some r => remote_url r | None => None end).

(** [urlOverride || remoteUrl || localUrl] *)
Definition resolvedUrl : JsString :=
  match orElse (orElse urlOverride remoteUrl) (Some localUrl) with
  | Some u => u
  | None => []
  end.

Definition resolvedToken : option JsString :=
  orElse (trimmed (token opts))
    (if isRemoteMode
     then trimmed (match remote with Some r => remote_token r | None => None end)
     else orElse (option_map trim (CLAWDBOT_GATEWAY_TOKEN amb))
                 (trimmed authToken)).

Definition resolvedPassword : option JsString :=
  orElse
    (orElse (trimmed (password opts))
            (option_map trim (CLAWDBOT_GATEWAY_PASSWORD amb)))
    (if isRemoteMode
     then trimmed
            (match remote with Some r => remote_password r | None => None end)
     else trimmed authPassword).

Definition urlSource : JsString :=
  if truthyOpt urlOverride then lit "cli --url"
  else if truthyOpt remoteUrl then lit "config gateway.remote.url"
  else match tailnetIPv4 amb with
       | Some ip =>
           if preferTailnet && truthy ip
           then lit "local tailnet " ++ ip
           else lit "local loopback"
       | None => lit "local loopback"
       end.

Definition remoteFallbackNote : option JsString :=
  if isRemoteMode && negb (truthyOpt urlOverride)
     && negb (truthyOpt remoteUrl)
  then Some (lit
    "Note: gateway.mode=remote but gateway.remote.url is missing; using local URL.")
  else None.

Definition bindDetail : option JsString :=
  if negb (truthyOpt urlOverride) && negb (truthyOpt remoteUrl)
  then Some (lit "Bind: " ++ bindMode)
  else None.

Definition LF : JsString := [10%N].

(** [[...].filter(Boolean).join("\n")] *)
Definition connectionDetails : JsString :=
  join LF
    (flat_map
       (fun o => match o with
                 | Some s => if truthy s then [s] else []
                 | None => []
                 end)
       [Some (lit "Gateway target: " ++ resolvedUrl);
        Some (lit "Source: " ++ urlSource);
        bindDetail;
        remoteFallbackNote]).

Definition resolvedTimeoutMs : N :=
  match timeoutMs opts with Some t => t | None => 10000%N end.

Definition formatCloseError (code : N) (reason : JsString) : JsString :=
  let reasonText :=
    if truthy (trim reason) then trim reason else lit "no close reason" in
  let hint :=
    if (code =? 1006)%N then lit "abnormal closure (no close frame)"
    else if (code =? 1000)%N then lit "normal closure"
    else [] in
  let suffix := if truthy hint then lit " " ++ hint else [] in
  lit "gateway closed (" ++ ofNumber code ++ suffix ++ lit "): "
    ++ reasonText ++ LF ++ connectionDetails.

Definition formatTimeoutError : JsString :=
  lit "gateway timeout after " ++ ofNumber resolvedTimeoutMs ++ lit "ms"
    ++ LF ++ connectionDetails.

End Resolve.

(** The token precedence as the specification lists it, each source
    falling through to the next when it gives nothing: the explicit
    argument, the remote configuration's token in remote mode, the
    environment's token, the locally configured token. *)
Definition token_spec (opts : CallGatewayOptions) (amb : Ambient)
  : option JsString :=
  orElse (trimmed (token opts))
    (orElse (trimmed
               (match remote amb with
                | Some r => remote_token r
                | None => None
                end))
       (orElse (option_map trim (CLAWDBOT_GATEWAY_TOKEN amb))
               (trimmed (authToken amb)))).

(** *** The promise and its single settlement *)

Section Call.

(** [T] is the type of a response, [Thrown] of what a request rejects
    with; [truthyThrown] tells whether such a value passes [if (err)]. *)
Variables (T Thrown : Type).
Variable truthyThrown : Thrown -> bool.
Variable opts : CallGatewayOptions.
Variable amb : Ambient.

Inductive GatewayError :=
| RequestError (e : Thrown)
| NewError (message : JsString).

Inductive Settlement :=
| Resolved (value : option T)
| Rejected (err : GatewayError).

(** The variables of the promise executor, the calls made to
    [resolve]/[reject] and the number of [client.stop()] calls. *)
Record CallState := {
  settled : bool;
  ignoreClose : bool;
  timerArmed : bool;
  requests : nat;
  clientStops : nat;
  settlements : list Settlement
}.

Definition truthyError (err : GatewayError) : bool :=
  match err with
  | RequestError e => truthyThrown e
  | NewError _ => true
  end.

Definition stop (err : option GatewayError) (value : option T)
    (st : CallState) : CallState :=
  if settled st then st
  else
    {| settled := true;
       ignoreClose := ignoreClose st;
       timerArmed := false;
       requests := requests st;
       clientStops := clientStops st;
       settlements := settlements st ++
         [match err with
          | Some e => if truthyError e then Rejected e else Resolved value
          | None => Resolved value
          end] |}.

Definition setIgnoreClose (st : CallState) : CallState :=
  {| settled := settled st; ignoreClose := true;
     timerArmed := timerArmed st; requests := requests st;
     clientStops := clientStops st; settlements := settlements st |}.

Definition clientStop (st : CallState) : CallState :=
  {| settled := settled st; ignoreClose := ignoreClose st;
     timerArmed := timerArmed st; requests := requests st;
     clientStops := S (clientStops st); settlements := settlements st |}.

(** [onHelloOk] up to its [await]: the request is issued. *)
Definition onHelloOk (st : CallState) : CallState :=
  {| settled := settled st; ignoreClose := ignoreClose st;
     timerArmed := timerArmed st; requests := S (requests st);
     clientStops := clientStops st; settlements := settlements st |}.

(** [onHelloOk] after its [await]: the [try] continuation. *)
Definition onRequestResult (result : T) (st : CallState) : CallState :=
  clientStop (stop None (Some result) (setIgnoreClose st)).

(** The [catch] block of [onHelloOk]. *)
Definition onRequestError (err : Thrown) (st : CallState) : CallState :=
  stop (Some (RequestError err)) None (clientStop (setIgnoreClose st)).

Definition onClose (code : N) (reason : JsString) (st : CallState)
  : CallState :=
  if settled st || ignoreClose st then st
  else
    stop (Some (NewError (formatCloseError opts amb code reason))) None
      (clientStop (setIgnoreClose st)).

Definition onTimeout (st : CallState) : CallState :=
  stop (Some (NewError (formatTimeoutError opts amb))) None
    (clientStop (setIgnoreClose st)).

(** What the client and the timer can deliver to the executor. *)
Inductive GwEvent :=
| HelloOk
| RequestResolved (result : T)
| RequestRejected (err : Thrown)
| Close (code : N) (reason : JsString)
| TimerFired.

(** A cleared timer does not fire, and it fires once. *)
Definition step (st : CallState) (ev : GwEvent) : CallState :=
  match ev with
  | HelloOk => onHelloOk st
  | RequestResolved result => onRequestResult result st
  | RequestRejected err => onRequestError err st
  | Close code reason => onClose code reason st
  | TimerFired =>
      if timerArmed st
      then onTimeout
             {| settled := settled st; ignoreClose := ignoreClose st;
                timerArmed := false; requests := requests st;
                clientStops := clientStops st;
                settlements := settlements st |}
      else st
  end.

Definition run (evs : list GwEvent) (st : CallState) : CallState :=
  fold_left step evs st.

(** The executor has run: the timer is armed, the client started. *)
Definition start : CallState :=
  {| settled := false; ignoreClose := false; timerArmed := true;
     requests := 0; clientStops := 0; settlements := [] |}.

(** The outcome of the promise: its first settlement. *)
Definition outcome (st : CallState) : option Settlement :=
  hd_error (settlements st).

(** [settled] is set exactly when [resolve] or [reject] has been called,
    and then it has been called once. *)
Definition Consistent (st : CallState) : Prop :=
  (settled st = false /\ settlements st = [])
  \/ (settled st = true /\ exists o, settlements st = [o]).

End Call.

End Gateway.

(** ** Further vocabulary for the statements *)

Section DispatcherReadings.

Variables (World Exn SendResult Other : Type).
Variable ext : Externals World Exn SendResult Other.
Variable params : Params World Exn SendResult Other.

(** The payloads [onPayload] was called on, in order. *)
Definition onPayloadCallsOf (evs : list (Event Exn SendResult))
  : list NormalizedOutboundPayload :=
  flat_map
    (fun ev => match ev with EvOnPayload p _ => [p] | _ => [] end) evs.

(** A computation that never calls [onPayload]. *)
Definition Silent {A} (m : M World Exn SendResult A) : Prop :=
  forall s, exists evs,
    trace (fst (m s)) = trace s ++ evs
    /\ flat_map
         (fun ev => match ev with EvOnPayload p _ => [p] | _ => [] end) evs
       = [].

(** The texts [sendTextChunks] sends. *)
Definition textsToSend (text : JsString) : list JsString :=
  match chunker params, textLimit ext params with
  | Some c, Some limit => applyChunker ext c text limit
  | _, _ => [text]
  end.

(** The [provider] property read off a result: a key of that name in
    the spread send result comes after the written tag and replaces
    it. *)
Definition providerRead (ownKey : SendResult -> option OutboundProvider)
    (r : OutboundDeliveryResult SendResult) : OutboundProvider :=
  match ownKey (identifiers r) with
  | Some own => own
  | None => provider r
  end.

(** No step of the [try] block failed. *)
Definition failureFree (evs : list (Event Exn SendResult)) : bool :=
  forallb
    (fun ev => match failureOf ev with Some _ => false | None => true end)
    evs.

(** The events of one loop iteration on [p] under best effort, with
    ([supplied]) or without an [onError] callback: all quiet; or quiet
    up to one failing step that the one [onError] call follows; or,
    without a callback, quiet up to one failing step and nothing
    more. *)
Inductive Iteration (supplied : bool) (p : NormalizedOutboundPayload)
  : list (Event Exn SendResult) -> Prop :=
| it_delivered evs :
    quiet evs = true -> Iteration supplied p evs
| it_reported pre fail e r :
    supplied = true -> quiet pre = true -> failureOf fail = Some e ->
    Iteration supplied p (pre ++ [fail; EvOnError e p r])
| it_skipped pre fail e :
    supplied = false -> quiet pre = true -> failureOf fail = Some e ->
    Iteration supplied p (pre ++ [fail]).

Definition isSupplied {A} (callback : option A) : bool :=
  match callback with Some _ => true | None => false end.

(** The token a call carries, if any. *)
Definition tokenOf (c : SendCall) : option JsString :=
  match call_opts c with
  | Some o => token o
  | None => None
  end.

(** The text sends of a payload without media: the chunks when a
    splitter and a limit are resolved, the whole text otherwise. *)
Definition textCalls (payload : NormalizedOutboundPayload) : list SendCall :=
  match chunker params, textLimit ext params with
  | Some c, Some limit =>
      map (fun chunk => sendCall ext params chunk None)
        (applyChunker ext c (text payload) limit)
  | _, _ => [sendCall ext params (text payload) None]
  end.

(** The send calls of a payload when nothing fails: its media calls
    when it has media, its text calls otherwise. *)
Definition plannedCalls (payload : NormalizedOutboundPayload)
  : list SendCall :=
  match mediaUrls payload with
  | [] => textCalls payload
  | _ => mediaCalls ext params payload
  end.

(** The texts of those calls, read off the configuration: for a
    payload without media the chunks the provider's splitter gives for
    the configured limit, the whole text when the provider has no
    splitter or no limit is configured; for a payload with media its
    text once and then one empty caption for each further URL. *)
Definition plannedTexts (payload : NormalizedOutboundPayload)
  : list JsString :=
  match mediaUrls payload with
  | [] =>
      match resolveChunker (p_provider params) with
      | Some c =>
          match resolveTextChunkLimit ext (cfg params) (p_provider params)
          with
          | Some limit => applyChunker ext c (text payload) limit
          | None => [text payload]
          end
      | None => [text payload]
      end
  | urls => text payload :: repeat [] (length urls - 1)
  end.

(** The send function [deps] gives for a branch, if any. *)
Definition overrideFor (fn : OutboundProvider)
  : option (SendFn World Exn SendResult) :=
  match deps params with
  | Some d =>
      match fn with
      | whatsapp => sendWhatsApp d
      | telegram => sendTelegram d
      | signal => sendSignal d
      | imessage => sendIMessage d
      | slack => sendSlack d
      | _ => sendDiscord d
      end
  | None => None
  end.

(** The call without its overrides. *)
Definition withoutDeps : Params World Exn SendResult Other :=
  {| cfg := cfg params;
     p_provider := p_provider params;
     to := to params;
     payloads := payloads params;
     deps := None;
     bestEffort := bestEffort params;
     onError := onError params;
     onPayload := onPayload params |}.

(** The collaborators with the default send function of provider [q]
    replaced by [f]. *)
Definition withSend (q : OutboundProvider) (f : SendFn World Exn SendResult)
  : Externals World Exn SendResult Other :=
  {| applyChunker := applyChunker ext;
     resolveTextChunkLimit := resolveTextChunkLimit ext;
     resolveTelegramToken := resolveTelegramToken ext;
     sendMessageWhatsApp :=
       if provider_eqb q whatsapp then f else sendMessageWhatsApp ext;
     sendMessageTelegram :=
       if provider_eqb q telegram then f else sendMessageTelegram ext;
     sendMessageDiscord :=
       if provider_eqb q discord then f else sendMessageDiscord ext;
     sendMessageSlack :=
       if provider_eqb q slack then f else sendMessageSlack ext;
     sendMessageSignal :=
       if provider_eqb q signal then f else sendMessageSignal ext;
     sendMessageIMessage :=
       if provider_eqb q imessage then f else sendMessageIMessage ext |}.

End DispatcherReadings.

Arguments onPayloadCallsOf {Exn SendResult} evs.
Arguments failureFree {Exn SendResult} evs.

Section CallReadings.

Variables (T Thrown : Type).
Variable truthyThrown : Thrown -> bool.
Variable opts : Gateway.CallGatewayOptions.
Variable amb : Gateway.Ambient.

(** What an event settles the promise with when it is the first one to
    reach [stop]; the handshake acknowledgement settles nothing. *)
Definition settlementOf (ev : Gateway.GwEvent T Thrown)
  : option (Gateway.Settlement T Thrown) :=
  match ev with
  | Gateway.HelloOk _ _ => None
  | Gateway.RequestResolved _ result =>
      Some (Gateway.Resolved Thrown (Some result))
  | Gateway.RequestRejected _ err =>
      Some (if truthyThrown err
            then Gateway.Rejected T (Gateway.RequestError err)
            else Gateway.Resolved Thrown None)
  | Gateway.Close _ _ code reason =>
      Some (Gateway.Rejected T
              (Gateway.NewError Thrown
                 (Gateway.formatCloseError opts amb code reason)))
  | Gateway.TimerFired _ _ =>
      Some (Gateway.Rejected T
              (Gateway.NewError Thrown (Gateway.formatTimeoutError opts amb)))
  end.

(** The first event of a sequence that is not a handshake
    acknowledgement. *)
Fixpoint firstSettling (evs : list (Gateway.GwEvent T Thrown))
  : option (Gateway.GwEvent T Thrown) :=
  match evs with
  | [] => None
  | Gateway.HelloOk _ _ :: rest => firstSettling rest
  | ev :: _ => Some ev
  end.

End CallReadings.

(** ** Sample collaborators

    A world that counts the send calls made, send functions that return
    the number of the call, and a splitter that cuts every [limit] code
    units. *)

Module Sample.

Definition World := nat.
Definition Exn := JsString.
Definition SendResult := nat.

Definition neverFails : SendFn World Exn SendResult :=
  fun _ _ _ w => (S w, Normal w).

(** Call number [n] (from zero) rejects, the others resolve. *)
Definition failingAt (n : nat) : SendFn World Exn SendResult :=
  fun _ _ _ w =>
    (S w, if Nat.eqb w n then Throw (lit "fail") else Normal w).

Fixpoint chunksOf (fuel n : nat) (s : JsString) : list JsString :=
  match fuel with
  | 0 => []
  | S fuel' =>
      match s with
      | [] => []
      | _ => firstn n s :: chunksOf fuel' n (skipn n s)
      end
  end.

Definition ext (send : SendFn World Exn SendResult)
  : Externals World Exn SendResult unit :=
  {| applyChunker := fun _ t limit => chunksOf (length t) (Z.to_nat limit) t;
     resolveTextChunkLimit := fun _ _ => Some 2%Z;
     resolveTelegramToken := fun _ => lit "tok-1";
     sendMessageWhatsApp := send;
     sendMessageTelegram := send;
     sendMessageDiscord := send;
     sendMessageSlack := send;
     sendMessageSignal := send;
     sendMessageIMessage := send |}.

Definition config (own agent : option Z) : ClawdbotConfig unit :=
  {| cfg_signal := Some {| mediaMaxMb := own |};
     cfg_imessage := None;
     cfg_agent := Some {| mediaMaxMb := agent |};
     cfg_gateway := None;
     cfg_other := tt |}.

Definition textOnly (t : string) : ReplyPayload :=
  {| rp_text := Some (lit t); rp_mediaUrl := None; rp_mediaUrls := None |}.

Definition withMedia (t : string) (urls : list string) : ReplyPayload :=
  {| rp_text := Some (lit t); rp_mediaUrl := None;
     rp_mediaUrls := Some (map lit urls) |}.

(** A callback that records nothing and returns. *)
Definition onErrorQuiet
  : Exn -> NormalizedOutboundPayload -> World -> World * Completion Exn unit :=
  fun _ _ w => (w, Normal tt).

Definition callWith (c : ClawdbotConfig unit) (p : OutboundProvider)
    (ps : list ReplyPayload) (best : option bool)
  : Params World Exn SendResult unit :=
  {| cfg := c;
     p_provider := p;
     to := lit "+1555";
     payloads := ps;
     deps := None;
     bestEffort := best;
     onError := Some onErrorQuiet;
     onPayload := None |}.

Definition call := callWith (config (Some 2%Z) None).

(** A remote-mode gateway configuration without a remote token. *)
Definition remoteGateway : GatewayConfig :=
  {| gw_mode := Some (lit "remote");
     gw_remote := Some {| remote_url := Some (lit " wss://gw.example:443 ");
                          remote_token := None;
                          remote_password := None |};
     gw_auth := Some {| auth_token := Some (lit "local-token");
                        auth_password := None |};
     gw_bind := Some (lit "auto") |}.

End Sample.

(** * Properties *)

(** ** Strings *)

Lemma eqb_eq a b : Js.eqb a b = true <-> a = b.
Proof.
  unfold Js.eqb. destruct (list_eq_dec N.eq_dec a b); split; congruence.
Qed.

Lemma eqb_refl a : Js.eqb a a = true.
Proof. now apply eqb_eq. Qed.

Lemma truthy_nonempty s : truthy s = true <-> s <> [].
Proof. destruct s; simpl; split; congruence. Qed.

Lemma trimStart_all_ws s :
  trimStart s = [] <-> forallb isWhiteSpace s = true.
Proof.
  induction s as [|c r IH]; simpl.
  - tauto.
  - destruct (isWhiteSpace c); simpl.
    + exact IH.
    + split; congruence.
Qed.

Lemma trimStart_suffix s : exists pre, s = pre ++ trimStart s.
Proof.
  induction s as [|c r [pre IH]]; simpl.
  - now exists [].
  - destruct (isWhiteSpace c).
    + exists (c :: pre). simpl. now rewrite <- IH.
    + now exists [].
Qed.

Lemma trimStart_idem s : trimStart (trimStart s) = trimStart s.
Proof.
  induction s as [|c r IH]; simpl; auto.
  destruct (isWhiteSpace c) eqn:E; auto. simpl. now rewrite E.
Qed.

Lemma trim_empty_iff_blank s : trim s = [] <-> blank s = true.
Proof.
  unfold trim, trimEnd, blank. split.
  - intros H.
    assert (H1 : trimStart (rev (trimStart s)) = []).
    { apply (f_equal (@rev N)) in H. now rewrite rev_involutive in H. }
    apply trimStart_all_ws in H1.
    rewrite forallb_forall in H1.
    destruct (trimStart_suffix s) as [pre Hp].
    destruct (trimStart s) as [|c r] eqn:E.
    + now apply trimStart_all_ws.
    + exfalso.
      assert (Hc : isWhiteSpace c = true).
      { apply H1. rewrite <- in_rev. now left. }
      assert (Hi : trimStart (trimStart s) = trimStart s)
        by apply trimStart_idem.
      rewrite E in Hi. simpl in Hi. rewrite Hc in Hi.
      destruct (trimStart_suffix r) as [p Hr].
      rewrite Hi in Hr. apply (f_equal (@length N)) in Hr.
      rewrite length_app in Hr. simpl in Hr. lia.
  - intros H. apply trimStart_all_ws in H. now rewrite H.
Qed.

Lemma trimmed_nonempty v s : Gateway.trimmed v = Some s -> s <> [].
Proof.
  unfold Gateway.trimmed. destruct v as [x|]; [|discriminate].
  destruct (trim x) eqn:E; simpl; [discriminate|].
  intros H. injection H as <-. discriminate.
Qed.

Lemma trimmed_truthy v : truthyOpt (Gateway.trimmed v) = true
                         \/ Gateway.trimmed v = None.
Proof.
  destruct (Gateway.trimmed v) as [s|] eqn:E; [left|now right].
  apply trimmed_nonempty in E. simpl. now apply truthy_nonempty.
Qed.

Lemma trimmed_blank v :
  Gateway.trimmed v = None <->
  match v with Some s => blank s = true | None => True end.
Proof.
  unfold Gateway.trimmed. destruct v as [s|]; [|tauto].
  rewrite <- trim_empty_iff_blank.
  destruct (trim s); simpl; split; congruence.
Qed.

(** ** Payload normaliser *)

Lemma normalize_in payloads q :
  In q (normalizeOutboundPayloads payloads) <->
  exists p, In p payloads /\ normalizeOne p = q /\ keepNormalized q = true.
Proof.
  unfold normalizeOutboundPayloads. rewrite filter_In, in_map_iff.
  split.
  - intros [[p [H1 H2]] H3]. exists p. auto.
  - intros [p [H1 [H2 H3]]]. split; [exists p|]; auto.
Qed.

Lemma normalize_app xs ys :
  normalizeOutboundPayloads (xs ++ ys) =
  normalizeOutboundPayloads xs ++ normalizeOutboundPayloads ys.
Proof.
  unfold normalizeOutboundPayloads. now rewrite map_app, filter_app.
Qed.

(** The code keeps every entry the specification keeps: the two filters
    part only on a text that is blank without being empty. *)
Lemma keep_spec_implies_keep q :
  keepNormalized_spec q = true -> keepNormalized q = true.
Proof.
  unfold keepNormalized_spec, keepNormalized, blank.
  destruct q as [t m]; simpl.
  destruct t; destruct m; simpl; auto.
Qed.

(** What the code returns holds, in the same order, every entry the
    specification asks for; filtering it once more by the trimmed text
    gives the specified list. *)
Lemma normalize_spec_of_code payloads :
  normalizeOutboundPayloads_spec payloads =
  filter keepNormalized_spec (normalizeOutboundPayloads payloads).
Proof.
  unfold normalizeOutboundPayloads_spec, normalizeOutboundPayloads.
  induction (map normalizeOne payloads) as [|q qs IH]; simpl; auto.
  destruct (keepNormalized_spec q) eqn:E.
  - rewrite (keep_spec_implies_keep q E). simpl. now rewrite E, IH.
  - destruct (keepNormalized q); simpl; now rewrite ?E, IH.
Qed.

(** C1: the repository's own test normalises
    [[{text:"hi"}, {mediaUrl:"https://x.test/a.jpg"}, {text:" ", mediaUrls:[]}]]
    and expects the third entry, whose trimmed text is empty and which
    has no media, to be dropped.  The code tests the untrimmed text and
    keeps it. *)
Theorem normalize_keeps_blank_text :
  let raw :=
    [ {| rp_text := Some (lit "hi"); rp_mediaUrl := None;
         rp_mediaUrls := None |};
      {| rp_text := None; rp_mediaUrl := Some (lit "https://x.test/a.jpg");
         rp_mediaUrls := None |};
      {| rp_text := Some (lit " "); rp_mediaUrl := None;
         rp_mediaUrls := Some [] |} ] in
  normalizeOutboundPayloads raw =
    [ {| text := lit "hi"; mediaUrls := [] |};
      {| text := []; mediaUrls := [lit "https://x.test/a.jpg"] |};
      {| text := lit " "; mediaUrls := [] |} ]
  /\ normalizeOutboundPayloads_spec raw =
    [ {| text := lit "hi"; mediaUrls := [] |};
      {| text := []; mediaUrls := [lit "https://x.test/a.jpg"] |} ].
Proof. split; reflexivity. Qed.

(** ** Gateway target resolution *)

Section ResolveFacts.

Import Gateway.

Variable opts : CallGatewayOptions.
Variable amb : Ambient.

Lemma orElse_Some (s : JsString) w : s <> [] -> orElse (Some s) w = Some s.
Proof. destruct s; [congruence|reflexivity]. Qed.

Lemma orElse_None (w : option JsString) : orElse None w = w.
Proof. reflexivity. Qed.

Lemma ofNumber_app_nonempty (p s : JsString) : p <> [] -> p ++ s <> [].
Proof. destruct p; simpl; congruence. Qed.

Lemma localUrl_nonempty : localUrl amb <> [].
Proof.
  unfold localUrl, tailnetUrl, loopbackUrl.
  destruct (tailnetIPv4 amb) as [ip|];
    [destruct (preferTailnet amb && truthy ip)|];
    apply ofNumber_app_nonempty; discriminate.
Qed.

Lemma localUrl_cases :
  (forall ip, tailnetIPv4 amb = Some ip -> ip <> [] ->
     bindMode amb = lit "tailnet" \/ bindMode amb = lit "auto" ->
     localUrl amb = tailnetUrl amb ip)
  /\ (tailnetIPv4 amb = None \/ tailnetIPv4 amb = Some []
      \/ (bindMode amb <> lit "tailnet" /\ bindMode amb <> lit "auto") ->
      localUrl amb = loopbackUrl amb).
Proof.
  unfold localUrl, preferTailnet. split.
  - intros ip Hip Hne Hb. rewrite Hip.
    apply truthy_nonempty in Hne. simpl. rewrite Hne.
    destruct Hb as [Hb | Hb]; rewrite Hb; reflexivity.
  - intros [H | [H | [H1 H2]]].
    { now rewrite H. }
    { rewrite H. simpl. now rewrite andb_false_r. }
    destruct (tailnetIPv4 amb) as [ip|]; [|reflexivity].
    destruct (Js.eqb (bindMode amb) (lit "tailnet")) eqn:E1.
    { apply eqb_eq in E1. contradiction. }
    destruct (Js.eqb (bindMode amb) (lit "auto")) eqn:E2.
    { apply eqb_eq in E2. contradiction. }
    reflexivity.
Qed.

End ResolveFacts.

Lemma trimmed_of_nonblank v s :
  v = Some s -> trim s <> [] -> Gateway.trimmed v = Some (trim s).
Proof.
  intros -> H. unfold Gateway.trimmed.
  destruct (trim s); [congruence | reflexivity].
Qed.

Lemma trimmed_of_blank v :
  match v with Some s => trim s = [] | None => True end ->
  Gateway.trimmed v = None.
Proof.
  unfold Gateway.trimmed. destruct v as [s|]; [|reflexivity].
  now intros ->.
Qed.

Lemma remoteUrl_absent amb :
  (forall g, Gateway.gateway amb = Some g ->
     gw_mode g = Some (lit "remote") ->
     forall r, gw_remote g = Some r ->
       match remote_url r with Some s => trim s = [] | None => True end) ->
  Gateway.remoteUrl amb = None.
Proof.
  intros H. unfold Gateway.remoteUrl, Gateway.remote, Gateway.isRemoteMode.
  destruct (Gateway.gateway amb) as [g|]; [|reflexivity].
  destruct (gw_mode g) as [m|] eqn:Em; [|reflexivity].
  destruct (Js.eqb m (lit "remote")) eqn:E; [|reflexivity].
  apply eqb_eq in E. subst m.
  destruct (gw_remote g) as [r|] eqn:Er; [|reflexivity].
  apply trimmed_of_blank. exact (H g eq_refl Em r Er).
Qed.

Lemma bindMode_of_config amb g :
  Gateway.gateway amb = Some g ->
  Gateway.bindMode amb =
    match gw_bind g with Some b => b | None => lit "loopback" end.
Proof. intros H. unfold Gateway.bindMode. now rewrite H. Qed.

(** C4: the resolved URL is never empty.  An explicit URL that is not
    blank wins, trimmed.  Without one, in remote mode
    ([gateway.mode] is ["remote"]), the URL of [gateway.remote] is
    taken, trimmed, when it is not blank.  Without either, the URL is
    built locally on the resolved port: on the tailnet address when
    [gateway.bind] is ["tailnet"] or ["auto"] and there is such an
    address, on loopback otherwise (no address, no [gateway] section,
    or any other bind mode, the absent one included). *)
Theorem resolvedUrl_precedence
    (opts : Gateway.CallGatewayOptions) (amb : Gateway.Ambient) :
  Gateway.resolvedUrl opts amb <> []
  /\ (forall s, Gateway.url opts = Some s -> trim s <> [] ->
        Gateway.resolvedUrl opts amb = trim s)
  /\ (match Gateway.url opts with Some s => trim s = [] | None => True end ->
      forall g r s,
        Gateway.gateway amb = Some g -> gw_mode g = Some (lit "remote") ->
        gw_remote g = Some r -> remote_url r = Some s -> trim s <> [] ->
        Gateway.resolvedUrl opts amb = trim s)
  /\ (match Gateway.url opts with Some s => trim s = [] | None => True end ->
      (forall g, Gateway.gateway amb = Some g ->
         gw_mode g = Some (lit "remote") ->
         forall r, gw_remote g = Some r ->
           match remote_url r with Some s => trim s = [] | None => True end) ->
      (forall g ip,
         Gateway.gateway amb = Some g ->
         gw_bind g = Some (lit "tailnet") \/ gw_bind g = Some (lit "auto") ->
         Gateway.tailnetIPv4 amb = Some ip -> ip <> [] ->
         Gateway.resolvedUrl opts amb =
           lit "ws://" ++ ip ++ lit ":" ++ ofNumber (Gateway.localPort amb))
      /\ (Gateway.tailnetIPv4 amb = None \/ Gateway.tailnetIPv4 amb = Some []
          \/ Gateway.gateway amb = None
          \/ (exists g, Gateway.gateway amb = Some g
                        /\ gw_bind g <> Some (lit "tailnet")
                        /\ gw_bind g <> Some (lit "auto")) ->
          Gateway.resolvedUrl opts amb =
            lit "ws://127.0.0.1:" ++ ofNumber (Gateway.localPort amb))).
Proof.
  unfold Gateway.resolvedUrl, Gateway.urlOverride.
  split; [|split; [|split]].
  - destruct (Gateway.trimmed (Gateway.url opts)) as [u|] eqn:Eu.
    + pose proof (trimmed_nonempty _ Eu) as Hn.
      now rewrite !orElse_Some.
    + rewrite orElse_None.
      destruct (Gateway.remoteUrl amb) as [u|] eqn:Er.
      * pose proof (trimmed_nonempty _ Er) as Hn.
        now rewrite orElse_Some.
      * rewrite orElse_None. apply localUrl_nonempty.
  - intros s Hs Hn. rewrite (trimmed_of_nonblank Hs Hn).
    now rewrite !orElse_Some.
  - intros Hb g r s Hg Hm Hr Hs Hn.
    rewrite (trimmed_of_blank _ Hb), orElse_None.
    assert (E : Gateway.remoteUrl amb = Some (trim s)).
    { unfold Gateway.remoteUrl, Gateway.remote, Gateway.isRemoteMode.
      rewrite Hg, Hm, eqb_refl, Hr. now apply trimmed_of_nonblank. }
    rewrite E. now rewrite orElse_Some.
  - intros Hb Hr.
    rewrite (trimmed_of_blank _ Hb), (remoteUrl_absent amb Hr). simpl.
    split.
    + intros g ip Hg Hbind Hip Hne.
      apply (proj1 (localUrl_cases amb)); auto.
      rewrite (bindMode_of_config amb Hg).
      destruct Hbind as [-> | ->]; auto.
    + intros [H | [H | [H | [g [Hg [H1 H2]]]]]].
      * apply (proj2 (localUrl_cases amb)). now left.
      * apply (proj2 (localUrl_cases amb)). right. now left.
      * apply (proj2 (localUrl_cases amb)). right. right.
        unfold Gateway.bindMode. rewrite H. split; discriminate.
      * apply (proj2 (localUrl_cases amb)). right. right.
        rewrite (bindMode_of_config amb Hg).
        destruct (gw_bind g) as [b|]; [split; congruence|].
        split; discriminate.
Qed.

Ltac side_condition :=
  first
    [ exact I
    | reflexivity
    | discriminate
    | now left
    | intros g Hg Hm; injection Hg as <-; discriminate Hm
    | right; right; right; eexists; split;
      [reflexivity | split; discriminate] ].

Lemma resolvedUrl_precedence_witness :
  let explicit s := {| Gateway.url := s; Gateway.token := None;
                       Gateway.password := None;
                       Gateway.timeoutMs := None |} in
  let around g ip := {| Gateway.gateway := g; Gateway.localPort := 18789;
                        Gateway.tailnetIPv4 := ip;
                        Gateway.CLAWDBOT_GATEWAY_TOKEN := None;
                        Gateway.CLAWDBOT_GATEWAY_PASSWORD := None |} in
  let localMode bind :=
    {| gw_mode := Some (lit "local");
       gw_remote := Some {| remote_url := Some (lit "wss://gw.example:443");
                            remote_token := None;
                            remote_password := None |};
       gw_auth := None;
       gw_bind := bind |} in
  Gateway.resolvedUrl (explicit (Some (lit "   ")))
    (around (Some Sample.remoteGateway) (Some (lit "100.64.0.7")))
  = trim (lit " wss://gw.example:443 ")
  /\ Gateway.resolvedUrl (explicit None)
       (around (Some (localMode (Some (lit "tailnet"))))
          (Some (lit "100.64.0.7")))
     = lit "ws://" ++ lit "100.64.0.7" ++ lit ":" ++ ofNumber 18789
  /\ Gateway.resolvedUrl (explicit None)
       (around (Some (localMode None)) (Some (lit "100.64.0.7")))
     = lit "ws://127.0.0.1:" ++ ofNumber 18789.
Proof.
  split; [|split].
  - refine (proj1 (proj2 (proj2 (resolvedUrl_precedence _ _))) _
              Sample.remoteGateway _ _ _ _ _ _ _); side_condition.
  - refine (proj1 (proj2 (proj2 (proj2 (resolvedUrl_precedence _ _))) _ _)
              _ _ _ _ _ _); side_condition.
  - refine (proj2 (proj2 (proj2 (proj2 (resolvedUrl_precedence _ _))) _ _)
              _); side_condition.
Defined.

(** C5, as stated, fails: in remote mode without a remote token the
    environment's token is not consulted. *)
Lemma resolvedToken_remote_skips_env :
  let opts := {| Gateway.url := None; Gateway.token := None;
                 Gateway.password := None; Gateway.timeoutMs := None |} in
  let amb := {| Gateway.gateway := Some Sample.remoteGateway;
                Gateway.localPort := 18789;
                Gateway.tailnetIPv4 := None;
                Gateway.CLAWDBOT_GATEWAY_TOKEN := Some (lit "env-token");
                Gateway.CLAWDBOT_GATEWAY_PASSWORD := None |} in
  Gateway.resolvedToken opts amb = None
  /\ Gateway.token_spec opts amb = Some (lit "env-token")
  /\ Gateway.resolvedToken opts amb <> Gateway.token_spec opts amb.
Proof. repeat split; try reflexivity. vm_compute. discriminate. Qed.

(** C5, amended: a non-blank explicit token, trimmed, wins over
    everything else; without one the token is, in remote mode, the
    remote configuration's non-blank token and nothing else, and
    outside remote mode the environment's token when it is not blank,
    else the locally configured non-blank token. *)
Theorem resolvedToken_precedence
    (opts : Gateway.CallGatewayOptions) (amb : Gateway.Ambient) :
  (forall t, Gateway.trimmed (Gateway.token opts) = Some t ->
     Gateway.resolvedToken opts amb = Some t)
  /\ (Gateway.trimmed (Gateway.token opts) = None ->
      Gateway.isRemoteMode amb = true ->
      Gateway.resolvedToken opts amb =
        Gateway.trimmed
          (match Gateway.gateway amb with
           | Some g => match gw_remote g with
                       | Some r => remote_token r
                       | None => None
                       end
           | None => None
           end))
  /\ (Gateway.trimmed (Gateway.token opts) = None ->
      Gateway.isRemoteMode amb = false ->
      (forall e, Gateway.CLAWDBOT_GATEWAY_TOKEN amb = Some e ->
         trim e <> [] -> Gateway.resolvedToken opts amb = Some (trim e))
      /\ (match Gateway.CLAWDBOT_GATEWAY_TOKEN amb with
          | Some e => trim e = []
          | None => True
          end ->
          Gateway.resolvedToken opts amb =
            Gateway.trimmed (Gateway.authToken amb))).
Proof.
  unfold Gateway.resolvedToken. repeat split.
  - intros t Ht. rewrite Ht. apply trimmed_nonempty in Ht.
    now apply orElse_Some.
  - intros Ht Hr. rewrite Ht, Hr. simpl.
    unfold Gateway.remote. rewrite Hr.
    destruct (Gateway.gateway amb) as [g|]; [|reflexivity].
    now destruct (gw_remote g).
  - intros e He Hne. rewrite H, H0, He. simpl.
    now apply orElse_Some.
  - intros He. rewrite H, H0. simpl.
    destruct (Gateway.CLAWDBOT_GATEWAY_TOKEN amb) as [e|]; [|reflexivity].
    simpl. now rewrite He.
Qed.

Lemma resolvedToken_precedence_witness :
  Gateway.resolvedToken
    {| Gateway.url := None; Gateway.token := Some (lit " cli-token ");
       Gateway.password := None; Gateway.timeoutMs := None |}
    {| Gateway.gateway := Some Sample.remoteGateway; Gateway.localPort := 18789;
       Gateway.tailnetIPv4 := None;
       Gateway.CLAWDBOT_GATEWAY_TOKEN := Some (lit "env-token");
       Gateway.CLAWDBOT_GATEWAY_PASSWORD := None |}
  = Some (lit "cli-token").
Proof.
  apply (proj1 (resolvedToken_precedence _ _)). reflexivity.
Defined.

(** ** The promise is settled once *)

Section CallFacts.

Import Gateway.

Variables (T Thrown : Type).
Variable truthyThrown : Thrown -> bool.
Variable opts : CallGatewayOptions.
Variable amb : Ambient.

Abbreviation State := (CallState T Thrown).
Abbreviation step := (@step T Thrown truthyThrown opts amb).
Abbreviation run := (@run T Thrown truthyThrown opts amb).

Lemma stop_settled err value (st : State) :
  settled st = true -> stop truthyThrown err value st = st.
Proof. unfold stop. now intros ->. Qed.

Lemma stop_consistent err value (st : State) :
  Consistent st -> Consistent (stop truthyThrown err value st).
Proof.
  intros [[Hs Hl] | [Hs Hl]]; unfold stop; rewrite Hs.
  - right. simpl. rewrite Hl. split; [reflexivity|]. simpl. eauto.
  - now right.
Qed.

Lemma stop_keeps err value (st : State) o :
  Consistent st -> outcome st = Some o ->
  settlements (stop truthyThrown err value st) = settlements st.
Proof.
  intros [[Hs Hl] | [Hs Hl]] Ho.
  - unfold outcome in Ho. rewrite Hl in Ho. discriminate.
  - now rewrite stop_settled.
Qed.

Lemma step_consistent (st : State) ev :
  Consistent st -> Consistent (step st ev).
Proof.
  intros H. destruct ev; simpl.
  - exact H.
  - assert (H' : Consistent (setIgnoreClose st)) by exact H.
    apply (stop_consistent None (Some result)) in H'. exact H'.
  - apply stop_consistent. exact H.
  - unfold onClose. destruct (settled st || ignoreClose st); [exact H|].
    apply stop_consistent. exact H.
  - destruct (timerArmed st); [|exact H].
    apply stop_consistent. exact H.
Qed.

Lemma step_keeps (st : State) ev o :
  Consistent st -> outcome st = Some o ->
  settlements (step st ev) = settlements st.
Proof.
  intros H Ho.
  assert (K : forall st' : State,
             settled st' = settled st -> settlements st' = settlements st ->
             forall err value,
               settlements (stop truthyThrown err value st') =
               settlements st).
  { intros st' E1 E2 err value. rewrite <- E2.
    apply stop_keeps with (o := o).
    - destruct H as [[Hs Hl] | [Hs Hl]]; [left|right];
        rewrite E1, E2; auto.
    - unfold outcome. now rewrite E2. }
  destruct ev; simpl.
  - reflexivity.
  - unfold onRequestResult. simpl. now apply K.
  - now apply K.
  - unfold onClose. destruct (settled st || ignoreClose st); [reflexivity|].
    now apply K.
  - destruct (timerArmed st); [|reflexivity]. now apply K.
Qed.

Lemma run_consistent evs (st : State) :
  Consistent st -> Consistent (run evs st).
Proof.
  revert st. induction evs as [|ev evs IH]; intros st H; simpl; auto.
  apply IH. now apply step_consistent.
Qed.

Lemma run_keeps evs (st : State) o :
  Consistent st -> outcome st = Some o ->
  settlements (run evs st) = settlements st.
Proof.
  revert st. induction evs as [|ev evs IH]; intros st H Ho; simpl; auto.
  rewrite IH.
  - now apply step_keeps with (o := o).
  - now apply step_consistent.
  - unfold outcome. now rewrite (step_keeps ev H Ho).
Qed.

Lemma start_consistent : Consistent (start T Thrown).
Proof. now left. Qed.

End CallFacts.

(** C3: whatever the client and the timer deliver, and in whatever
    order, [resolve]/[reject] is called at most once; once the call has
    an outcome, no later event (a close after a completed request
    included) changes it. *)
Theorem outcome_settled_once
    (T Thrown : Type) (truthyThrown : Thrown -> bool)
    (opts : Gateway.CallGatewayOptions) (amb : Gateway.Ambient)
    (before after : list (Gateway.GwEvent T Thrown))
    (o : Gateway.Settlement T Thrown) :
  length (Gateway.settlements
            (Gateway.run truthyThrown opts amb before
               (Gateway.start T Thrown))) <= 1
  /\ (Gateway.outcome
        (Gateway.run truthyThrown opts amb before (Gateway.start T Thrown))
      = Some o ->
      Gateway.settlements
        (Gateway.run truthyThrown opts amb (before ++ after)
           (Gateway.start T Thrown)) = [o]).
Proof.
  pose proof (run_consistent truthyThrown opts amb before
                (start_consistent T Thrown)) as Hc.
  split.
  - destruct Hc as [[_ ->] | [_ [x ->]]]; simpl; lia.
  - intros Ho. unfold Gateway.run at 1. rewrite fold_left_app.
    fold (Gateway.run truthyThrown opts amb before (Gateway.start T Thrown)).
    fold (Gateway.run truthyThrown opts amb after
            (Gateway.run truthyThrown opts amb before
               (Gateway.start T Thrown))).
    rewrite (run_keeps truthyThrown opts amb after Hc Ho).
    destruct Hc as [[_ Hl] | [_ [x Hl]]];
      unfold Gateway.outcome in Ho; rewrite Hl in *; simpl in Ho.
    + discriminate.
    + congruence.
Qed.

Lemma outcome_settled_once_witness :
  Gateway.settlements
    (Gateway.run (fun _ : nat => true)
       {| Gateway.url := None; Gateway.token := None;
          Gateway.password := None; Gateway.timeoutMs := None |}
       {| Gateway.gateway := None; Gateway.localPort := 18789;
          Gateway.tailnetIPv4 := None;
          Gateway.CLAWDBOT_GATEWAY_TOKEN := None;
          Gateway.CLAWDBOT_GATEWAY_PASSWORD := None |}
       ([Gateway.HelloOk nat nat; Gateway.RequestResolved nat 7]
          ++ [Gateway.Close nat nat 1006 []; Gateway.TimerFired nat nat;
              Gateway.RequestRejected nat 3])
       (Gateway.start nat nat))
  = [Gateway.Resolved nat (Some 7)].
Proof.
  apply (proj2 (outcome_settled_once _ _ _ _ _ _)). reflexivity.
Defined.

(** ** Outbound dispatcher *)

Section TraceFacts.

Variables (Exn SendResult : Type).

Abbreviation Ev := (Event Exn SendResult).

Lemma resultsOf_app (a b : list Ev) :
  resultsOf (a ++ b) = resultsOf a ++ resultsOf b.
Proof. apply flat_map_app. Qed.

Lemma sendCallsOf_app (a b : list Ev) :
  sendCallsOf (a ++ b) = sendCallsOf a ++ sendCallsOf b.
Proof. apply flat_map_app. Qed.

Lemma onErrorCallsOf_app (a b : list Ev) :
  onErrorCallsOf (a ++ b) = onErrorCallsOf a ++ onErrorCallsOf b.
Proof. apply flat_map_app. Qed.

Lemma quiet_app (a b : list Ev) : quiet (a ++ b) = quiet a && quiet b.
Proof. apply forallb_app. Qed.

Lemma quiet_no_onError (evs : list Ev) :
  quiet evs = true -> onErrorCallsOf evs = [].
Proof.
  induction evs as [|ev evs IH]; simpl; auto.
  intros H. apply andb_prop in H as [H1 H2].
  destruct ev as [c r|p r|e p r]; simpl in *; auto. discriminate.
Qed.

Lemma failure_not_quiet (ev : Ev) e :
  failureOf ev = Some e -> quietEvent ev = false.
Proof. destruct ev as [c [x|x]|p [x|x]|x p r]; simpl; congruence. Qed.

Lemma failure_no_result (ev : Ev) e :
  failureOf ev = Some e -> resultsOf [ev] = [].
Proof. destruct ev as [c [x|x]|p [x|x]|x p r]; simpl; congruence. Qed.

(** A trace that is quiet up to its last event has one place only for
    an event that is not quiet. *)
Lemma quiet_split_unique (pre' pre post : list Ev) fail x :
  quiet pre' = true -> quietEvent x = false ->
  pre ++ x :: post = pre' ++ [fail] ->
  pre = pre' /\ post = [] /\ x = fail.
Proof.
  revert pre. induction pre' as [|a pre' IH]; intros pre Hq Hx E.
  - destruct pre as [|b pre]; simpl in E.
    + injection E as -> <-. auto.
    + injection E as _ E. now destruct pre.
  - simpl in Hq. apply andb_prop in Hq as [Ha Hq].
    destruct pre as [|b pre]; simpl in E; injection E as E1 E2.
    + subst. congruence.
    + subst. destruct (IH pre Hq Hx E2) as [-> [-> ->]]. auto.
Qed.

Lemma quiet_all (evs pre post : list Ev) x :
  quiet evs = true -> evs = pre ++ x :: post -> quietEvent x = true.
Proof.
  intros H ->. rewrite quiet_app in H. apply andb_prop in H as [_ H].
  simpl in H. now apply andb_prop in H as [H _].
Qed.

Lemma segment_onError_calls p (seg : list Ev) :
  Segment p seg -> length (onErrorCallsOf seg) <= 1.
Proof.
  intros [evs H | pre fail e r Hq Hf].
  - rewrite (quiet_no_onError _ H). simpl. lia.
  - rewrite onErrorCallsOf_app, (quiet_no_onError _ Hq). simpl.
    destruct fail as [c [x|x]|q [x|x]|x q y]; simpl in *;
      try discriminate; lia.
Qed.

End TraceFacts.

Section DispatcherFacts.

Variables (World Exn SendResult Other : Type).
Variable ext : Externals World Exn SendResult Other.
Variable params : Params World Exn SendResult Other.

Abbreviation Comp := (M World Exn SendResult).

(** [sendText] and [sendMedia] are the two columns of one table. *)
Lemma sendText_send text s :
  sendText ext params text s = send ext params text None s.
Proof.
  unfold sendText, send, branch, sendFnOf, sendOptions.
  now destruct (p_provider params).
Qed.

Lemma sendMedia_send caption url s :
  sendMedia ext params caption url s = send ext params caption (Some url) s.
Proof.
  unfold sendMedia, send, branch, sendFnOf, sendOptions.
  now destruct (p_provider params).
Qed.

Lemma send_run text url s :
  send ext params text url s =
  match sendFnOf ext params (branch params) (to params) text
          (sendOptions ext params (branch params) url) (world s) with
  | (w, Normal res) =>
      ({| world := w;
          results := results s
            ++ [{| provider := branch params; identifiers := res |}];
          trace := trace s
            ++ [EvSend (sendCall ext params text url) (Normal res)] |},
       Normal tt)
  | (w, Throw e) =>
      ({| world := w; results := results s;
          trace := trace s
            ++ [EvSend (sendCall ext params text url) (Throw e)] |},
       Throw e)
  end.
Proof.
  unfold send, bind, callSend, pushResult, sendCall.
  now destruct (sendFnOf _ _ _ _ _ _ _) as [w [res|e]].
Qed.

Section Emitting.

Variable P : SendCall -> Prop.
Hypothesis P_sendCall : forall text url, P (sendCall ext params text url).

Lemma emits_ret A (a : A) : Emits P (ret a : Comp A).
Proof.
  intros s. exists []. simpl. rewrite !app_nil_r. auto.
Qed.

Lemma emits_bind A B (m : Comp A) (k : A -> Comp B) :
  Emits P m -> (forall a, Emits P (k a)) -> Emits P (bind m k).
Proof.
  intros Hm Hk s. unfold bind.
  destruct (Hm s) as [evs1 [T1 [R1 [F1 C1]]]].
  destruct (m s) as [s1 [a|e]]; simpl in *.
  - destruct (Hk a s1) as [evs2 [T2 [R2 [F2 C2]]]].
    exists (evs1 ++ evs2).
    rewrite T2, R2, T1, R1, resultsOf_app, sendCallsOf_app, !app_assoc.
    repeat split; auto.
    + apply Forall_app; auto.
    + destruct (snd (k a s1)) as [b|e]; simpl in *.
      * now rewrite quiet_app, C1, C2.
      * destruct C2 as [pre [fail [-> [Q Hf]]]].
        exists (evs1 ++ pre), fail. rewrite quiet_app, C1, Q, app_assoc. auto.
  - exists evs1. auto.
Qed.

Lemma emits_send text url : Emits P (send ext params text url).
Proof.
  intros s. rewrite send_run.
  destruct (sendFnOf _ _ _ _ _ _ _) as [w [res|e]]; simpl.
  - exists [EvSend (sendCall ext params text url) (Normal res)].
    simpl. rewrite ?app_nil_r. repeat split; auto.
  - exists [EvSend (sendCall ext params text url) (Throw e)].
    simpl. rewrite ?app_nil_r. repeat split; auto.
    exists [], (EvSend (sendCall ext params text url) (Throw e)). auto.
Qed.

Lemma emits_ext A (m m' : Comp A) :
  (forall s, m s = m' s) -> Emits P m' -> Emits P m.
Proof. intros E H s. rewrite E. apply H. Qed.

Lemma emits_sendText text : Emits P (sendText ext params text).
Proof.
  eapply emits_ext; [apply sendText_send | apply emits_send].
Qed.

Lemma emits_sendMedia caption url :
  Emits P (sendMedia ext params caption url).
Proof.
  eapply emits_ext; [apply sendMedia_send | apply emits_send].
Qed.

Lemma emits_forEach A (body : A -> Comp unit) xs :
  (forall x, Emits P (body x)) -> Emits P (forEach body xs).
Proof.
  intros H. induction xs as [|x xs IH]; simpl.
  - apply emits_ret.
  - apply emits_bind; auto.
Qed.

Lemma emits_sendTextChunks text : Emits P (sendTextChunks ext params text).
Proof.
  unfold sendTextChunks.
  destruct (chunker params); [destruct (textLimit ext params)|];
    try apply emits_sendText.
  apply emits_forEach. apply emits_sendText.
Qed.

Lemma emits_sendMediaLoop text first urls :
  Emits P (sendMediaLoop ext params text first urls).
Proof.
  revert first. induction urls as [|u urls IH]; intros first; simpl.
  - apply emits_ret.
  - apply emits_bind; [apply emits_sendMedia | auto].
Qed.

Lemma emits_callOnPayload payload : Emits P (callOnPayload params payload).
Proof.
  unfold callOnPayload. destruct (onPayload params) as [f|].
  - intros s. destruct (f payload (world s)) as [w [[]|e]]; simpl.
    + exists [EvOnPayload payload (Normal tt)]. simpl.
      rewrite ?app_nil_r. auto.
    + exists [EvOnPayload payload (Throw e)]. simpl.
      rewrite ?app_nil_r. repeat split; auto.
      exists [], (EvOnPayload payload (Throw e)). auto.
  - apply emits_ret.
Qed.

Lemma emits_tryBody payload : Emits P (tryBody ext params payload).
Proof.
  unfold tryBody. apply emits_bind; [apply emits_callOnPayload|].
  intros _. destruct (mediaUrls payload).
  - apply emits_sendTextChunks.
  - apply emits_sendMediaLoop.
Qed.

(** Without best effort the [catch] block rethrows: an iteration is its
    [try] block. *)
Lemma deliverOne_strict payload s :
  isBestEffort params = false ->
  deliverOne ext params payload s = tryBody ext params payload s.
Proof.
  intros H. unfold deliverOne, tryCatch, catchBody. rewrite H.
  now destruct (tryBody ext params payload s) as [s1 [[]|e]].
Qed.

Lemma emits_deliverLoop_strict ps :
  isBestEffort params = false -> Emits P (deliverLoop ext params ps).
Proof.
  intros H. apply emits_forEach. intros x.
  eapply emits_ext; [intros s; now apply deliverOne_strict|].
  apply emits_tryBody.
Qed.

End Emitting.

(** *** Media payloads *)

Lemma sendMediaLoop_calls (text : JsString) (urls : list JsString) :
  forall (first : bool) (s : DState World Exn SendResult),
  let expected :=
    match urls with
    | [] => []
    | u :: rest =>
        sendCall ext params (if first then text else []) (Some u)
          :: map (fun u' => sendCall ext params [] (Some u')) rest
    end in
  let out := sendMediaLoop ext params text first urls s in
  exists evs,
    trace (fst out) = trace s ++ evs
    /\ (exists k, sendCallsOf evs = firstn k expected)
    /\ hd_error (sendCallsOf evs) = hd_error expected
    /\ (snd out = Normal tt -> sendCallsOf evs = expected)
    /\ (SendsReturn ext params -> snd out = Normal tt).
Proof.
  induction urls as [|u rest IH]; intros first s; simpl.
  - exists []. rewrite app_nil_r. repeat split; auto. now exists 0.
  - unfold bind. rewrite sendMedia_send, send_run.
    destruct (sendFnOf _ _ _ _ _ _ _) as [w [res|e]] eqn:E.
    + match goal with
      | |- context [sendMediaLoop _ _ _ _ _ ?st] =>
          destruct (IH false st) as [evs [T [[k K] [_ [N L]]]]]
      end.
      assert (X : match rest with
                  | [] => []
                  | u0 :: rest0 =>
                      sendCall ext params [] (Some u0)
                        :: map (fun u' => sendCall ext params [] (Some u'))
                             rest0
                  end
                  = map (fun u' => sendCall ext params [] (Some u')) rest)
        by now destruct rest.
      rewrite X in *. simpl in T.
      eexists (_ :: evs). rewrite T, <- app_assoc. simpl.
      repeat split; auto.
      * exists (S k). simpl. now rewrite K.
      * intros H. now rewrite N.
    + eexists [_]. simpl. repeat split; auto.
      * now exists 1.
      * discriminate.
      * intros H. destruct (H (if first then text else [])
                              (sendOptions ext params (branch params)
                                 (Some u)) (world s)) as [w' [res E']].
        congruence.
Qed.

Lemma tryBody_media payload u rest s :
  mediaUrls payload = u :: rest ->
  tryBody ext params payload s =
  bind (callOnPayload params payload)
    (fun _ => sendMediaLoop ext params (text payload) true (u :: rest)) s.
Proof. intros H. unfold tryBody. now rewrite H. Qed.

Lemma callOnPayload_run payload s :
  exists evs,
    trace (fst (callOnPayload params payload s)) = trace s ++ evs
    /\ sendCallsOf evs = []
    /\ (OnPayloadReturns params ->
        snd (callOnPayload params payload s) = Normal tt).
Proof.
  unfold callOnPayload, OnPayloadReturns.
  destruct (onPayload params) as [f|].
  - destruct (f payload (world s)) as [w r] eqn:E. simpl.
    exists [EvOnPayload payload r]. repeat split; auto.
    intros H. specialize (H f eq_refl payload (world s)).
    now rewrite E in H.
  - exists []. simpl. rewrite app_nil_r. auto.
Qed.

(** *** Best effort *)

Section BestEffort.

Hypothesis best : isBestEffort params = true.
Variable f :
  Exn -> NormalizedOutboundPayload -> World -> World * Completion Exn unit.
Hypothesis supplied : onError params = Some f.

Lemma deliverOne_segment payload s :
  let out := deliverOne ext params payload s in
  exists seg,
    trace (fst out) = trace s ++ seg
    /\ results (fst out) = results s ++ resultsOf seg
    /\ Segment payload seg
    /\ (forall e, snd out = Throw e ->
        exists e0 w, snd (f e0 payload w) = Throw e).
Proof.
  simpl. unfold deliverOne, tryCatch, catchBody. rewrite best.
  destruct (@emits_tryBody (fun _ => True) (fun _ _ => I) payload s)
    as [evs [T [R [_ C]]]].
  destruct (tryBody ext params payload s) as [s1 [[]|e]]; simpl in *.
  - exists evs. repeat split; auto.
    + now constructor.
    + discriminate.
  - destruct C as [pre [fail [-> [Q Hf]]]].
    unfold callOnError. rewrite supplied.
    destruct (f e payload (world s1)) as [w r] eqn:E. simpl.
    exists (pre ++ [fail; EvOnError e payload r]).
    assert (X : resultsOf (pre ++ [fail; EvOnError e payload r])
                = resultsOf (pre ++ [fail])).
    { change [fail; EvOnError e payload r]
        with ([fail] ++ [EvOnError e payload r]).
      now rewrite !resultsOf_app, app_nil_r. }
    rewrite X, T, R, <- !app_assoc. simpl.
    repeat split.
    + now constructor.
    + intros e' ->. exists e, (world s1). now rewrite E.
Qed.

Lemma deliverLoop_segments ps : forall s,
  let out := deliverLoop ext params ps s in
  exists segs,
    trace (fst out) = trace s ++ concat segs
    /\ results (fst out) = results s ++ resultsOf (concat segs)
    /\ Forall2 (@Segment Exn SendResult) (firstn (length segs) ps) segs
    /\ (snd out = Normal tt -> length segs = length ps)
    /\ (OnErrorReturns params -> snd out = Normal tt).
Proof.
  unfold deliverLoop.
  induction ps as [|p rest IH]; intros s; simpl.
  - exists []. simpl. rewrite !app_nil_r. repeat split; auto.
  - unfold bind.
    destruct (deliverOne_segment p s) as [seg [T [R [G H]]]].
    destruct (deliverOne ext params p s) as [s1 [[]|e]]; simpl in *.
    + destruct (IH s1) as [segs [T' [R' [F [N L]]]]].
      exists (seg :: segs). simpl.
      rewrite T', R', T, R, resultsOf_app, <- !app_assoc.
      repeat split; auto.
    + exists [seg]. simpl. rewrite app_nil_r.
      repeat split; auto.
      * discriminate.
      * intros K. destruct (H e eq_refl) as [e0 [w E]].
        rewrite (K f supplied e0 p w) in E. discriminate.
Qed.

End BestEffort.

End DispatcherFacts.

(** *** What every send call of a delivery satisfies *)

Section EveryCall.

Variables (World Exn SendResult Other : Type).
Variable ext : Externals World Exn SendResult Other.
Variable params : Params World Exn SendResult Other.
Variable P : SendCall -> Prop.
Hypothesis P_sendCall : forall text url, P (sendCall ext params text url).

Lemma calls_of_emits A (m : M World Exn SendResult A) :
  Emits P m -> Calls P m.
Proof.
  intros H s. destruct (H s) as [evs [T [R [F _]]]]. now exists evs.
Qed.

Lemma calls_tryCatch A (body : M World Exn SendResult A) handler :
  Calls P body -> (forall e, Calls P (handler e)) ->
  Calls P (tryCatch body handler).
Proof.
  intros Hb Hh s. unfold tryCatch.
  destruct (Hb s) as [evs1 [T1 [R1 F1]]].
  destruct (body s) as [s1 [a|e]]; simpl in *.
  - now exists evs1.
  - destruct (Hh e s1) as [evs2 [T2 [R2 F2]]].
    exists (evs1 ++ evs2).
    rewrite T2, T1, R2, R1, sendCallsOf_app, resultsOf_app, !app_assoc.
    repeat split. now apply Forall_app.
Qed.

Lemma calls_forEach A (body : A -> M World Exn SendResult unit) xs :
  (forall x, Calls P (body x)) -> Calls P (forEach body xs).
Proof.
  intros H. induction xs as [|x xs IH]; intros s; simpl.
  - exists []. now rewrite !app_nil_r.
  - unfold bind. destruct (H x s) as [evs1 [T1 [R1 F1]]].
    destruct (body x s) as [s1 [[]|e]]; simpl in *.
    + destruct (IH s1) as [evs2 [T2 [R2 F2]]].
      exists (evs1 ++ evs2).
      rewrite T2, T1, R2, R1, sendCallsOf_app, resultsOf_app, !app_assoc.
      repeat split. now apply Forall_app.
    + now exists evs1.
Qed.

Lemma calls_catchBody payload e :
  Calls P (catchBody params payload e).
Proof.
  unfold catchBody, callOnError, throw. intros s.
  destruct (isBestEffort params); [destruct (onError params) as [f|]|].
  - destruct (f e payload (world s)) as [w r]. simpl.
    exists [EvOnError e payload r]. simpl. now rewrite app_nil_r.
  - exists []. simpl. now rewrite !app_nil_r.
  - exists []. simpl. now rewrite !app_nil_r.
Qed.

Lemma calls_deliverLoop ps : Calls P (deliverLoop ext params ps).
Proof.
  apply calls_forEach. intros payload.
  apply calls_tryCatch.
  - apply calls_of_emits. now apply emits_tryBody.
  - apply calls_catchBody.
Qed.

Lemma calls_deliver w :
  let out := deliverOutboundPayloads ext params w in
  Forall P (sendCallsOf (trace (fst out)))
  /\ results (fst out) = resultsOf (trace (fst out))
  /\ (forall l, snd out = Normal l -> l = resultsOf (trace (fst out))).
Proof.
  unfold deliverOutboundPayloads.
  destruct (calls_deliverLoop
              (normalizeOutboundPayloads (payloads params)) (initial w))
    as [evs [T [R F]]].
  destruct (deliverLoop _ _ _ _) as [s [[]|e]]; simpl in *;
    rewrite T, R; repeat split; auto; try discriminate.
  intros l H. injection H as <-. reflexivity.
Qed.

End EveryCall.

Lemma segment_failed_results (Exn SendResult : Type)
    (pre : list (Event Exn SendResult)) fail e p r :
  failureOf fail = Some e ->
  resultsOf (pre ++ [fail; EvOnError e p r]) = resultsOf pre.
Proof.
  intros H. change [fail; EvOnError e p r]
    with ([fail] ++ [EvOnError e p r]).
  now rewrite !resultsOf_app, (failure_no_result _ H), !app_nil_r.
Qed.

Section BestEffortAny.

Variables (World Exn SendResult Other : Type).
Variable ext : Externals World Exn SendResult Other.
Variable params : Params World Exn SendResult Other.
Hypothesis best : isBestEffort params = true.

Lemma deliverOne_iteration payload s :
  let out := deliverOne ext params payload s in
  exists seg,
    trace (fst out) = trace s ++ seg
    /\ results (fst out) = results s ++ resultsOf seg
    /\ Iteration (isSupplied (onError params)) payload seg
    /\ (forall e, snd out = Throw e ->
        exists f e0 w,
          onError params = Some f /\ snd (f e0 payload w) = Throw e).
Proof.
  simpl. unfold deliverOne, tryCatch, catchBody. rewrite best.
  destruct (@emits_tryBody _ _ _ _ ext params (fun _ => True)
              (fun _ _ => I) payload s) as [evs [T [R [_ C]]]].
  destruct (tryBody ext params payload s) as [s1 [[]|e]]; simpl in *.
  - exists evs. repeat split; auto.
    + now constructor.
    + discriminate.
  - destruct C as [pre [fail [-> [Q Hf]]]].
    unfold callOnError. destruct (onError params) as [f|] eqn:Ef.
    + destruct (f e payload (world s1)) as [w r] eqn:E. simpl.
      exists (pre ++ [fail; EvOnError e payload r]).
      assert (X : resultsOf (pre ++ [fail; EvOnError e payload r])
                  = resultsOf (pre ++ [fail])).
      { change [fail; EvOnError e payload r]
          with ([fail] ++ [EvOnError e payload r]).
        now rewrite !resultsOf_app, app_nil_r. }
      rewrite X, T, R, <- !app_assoc. simpl.
      repeat split.
      * now apply it_reported.
      * intros e' ->. exists f, e, (world s1). now rewrite E.
    + simpl. exists (pre ++ [fail]). rewrite T, R.
      repeat split.
      * now apply it_skipped with (e := e).
      * discriminate.
Qed.

Lemma deliverLoop_iterations ps : forall s,
  let out := deliverLoop ext params ps s in
  exists segs,
    trace (fst out) = trace s ++ concat segs
    /\ results (fst out) = results s ++ resultsOf (concat segs)
    /\ Forall2 (@Iteration Exn SendResult (isSupplied (onError params)))
         (firstn (length segs) ps) segs
    /\ (snd out = Normal tt -> length segs = length ps)
    /\ (OnErrorReturns params -> snd out = Normal tt).
Proof.
  unfold deliverLoop.
  induction ps as [|p rest IH]; intros s; simpl.
  - exists []. simpl. rewrite !app_nil_r. repeat split; auto.
  - unfold bind.
    destruct (deliverOne_iteration p s) as [seg [T [R [G H]]]].
    destruct (deliverOne ext params p s) as [s1 [[]|e]]; simpl in *.
    + destruct (IH s1) as [segs [T' [R' [F [N L]]]]].
      exists (seg :: segs). simpl.
      rewrite T', R', T, R, resultsOf_app, <- !app_assoc.
      repeat split; auto.
    + exists [seg]. simpl. rewrite app_nil_r.
      repeat split; auto.
      * discriminate.
      * intros K. destruct (H e eq_refl) as [f [e0 [w [Ef E]]]].
        rewrite (K f Ef e0 p w) in E. discriminate.
Qed.

End BestEffortAny.

(** C2, as stated, fails: the second media send of the only payload
    rejects, [onError] is called on that payload, and the list returned
    still holds the result of its first send. *)
Lemma failed_payload_contributes :
  let out :=
    deliverOutboundPayloads (Sample.ext (Sample.failingAt 1))
      (Sample.call whatsapp
         [Sample.withMedia "cap" ["a"%string; "b"%string]] (Some true)) 0 in
  onErrorCallsOf (trace (fst out)) =
    [(lit "fail", {| text := lit "cap"; mediaUrls := [lit "a"; lit "b"] |})]
  /\ snd out = Normal [{| provider := whatsapp; identifiers := 0 |}].
Proof. split; reflexivity. Qed.

(** C2, amended: under best effort, with or without an [onError]
    callback, the events of a call split into one run per normalised
    payload, in order.  A payload that is delivered has only successful
    steps.  A payload whose processing fails has its successful sends,
    then its failing step, then exactly one [onError] call when the
    callback is supplied and nothing when it is not.  The list returned
    is made of the results of the successful sends, in the order they
    were made (for a failing payload: of the sends that succeeded
    before its failing step), and the call returns whenever [onError]
    does. *)
Theorem best_effort_results
    (World Exn SendResult Other : Type)
    (ext : Externals World Exn SendResult Other)
    (params : Params World Exn SendResult Other)
    (w : World) :
  isBestEffort params = true ->
  let out := deliverOutboundPayloads ext params w in
  let ps := normalizeOutboundPayloads (payloads params) in
  exists segs,
    trace (fst out) = concat segs
    /\ Forall2 (@Iteration Exn SendResult (isSupplied (onError params)))
         (firstn (length segs) ps) segs
    /\ (forall l, snd out = Normal l ->
          l = resultsOf (concat segs) /\ length segs = length ps)
    /\ (OnErrorReturns params -> exists l, snd out = Normal l).
Proof.
  intros Hb. simpl. unfold deliverOutboundPayloads.
  destruct (@deliverLoop_iterations _ _ _ _ ext params Hb
              (normalizeOutboundPayloads (payloads params)) (initial w))
    as [segs [T [R [F [N L]]]]].
  destruct (deliverLoop _ _ _ _) as [s [[]|e]]; simpl in *.
  - exists segs. split; [exact T|]. split; [exact F|]. split.
    + intros l H. injection H as <-. split; [exact R|]. now apply N.
    + intros _. now exists (results s).
  - exists segs. split; [exact T|]. split; [exact F|]. split.
    + discriminate.
    + intros H. specialize (L H). discriminate.
Qed.

Lemma best_effort_results_witness :
  let params :=
    {| cfg := Sample.config None None;
       p_provider := whatsapp;
       to := lit "+1555";
       payloads := [Sample.withMedia "cap" ["a"%string; "b"%string];
                    Sample.textOnly "x"];
       deps := None;
       bestEffort := Some true;
       onError := None;
       onPayload := None |} in
  let out :=
    deliverOutboundPayloads (Sample.ext (Sample.failingAt 1)) params 0 in
  let ps := normalizeOutboundPayloads (payloads params) in
  exists segs,
    trace (fst out) = concat segs
    /\ Forall2 (@Iteration Sample.Exn Sample.SendResult false)
         (firstn (length segs) ps) segs
    /\ (forall l, snd out = Normal l ->
          l = resultsOf (concat segs) /\ length segs = length ps)
    /\ (OnErrorReturns params -> exists l, snd out = Normal l).
Proof.
  apply (@best_effort_results _ _ _ _ (Sample.ext (Sample.failingAt 1))
           {| cfg := Sample.config None None;
              p_provider := whatsapp;
              to := lit "+1555";
              payloads := [Sample.withMedia "cap" ["a"%string; "b"%string];
                           Sample.textOnly "x"];
              deps := None;
              bestEffort := Some true;
              onError := None;
              onPayload := None |} 0).
  reflexivity.
Defined.

(** The same call returns both successful results, with no callback to
    report the failing send to. *)
Example best_effort_without_callback :
  snd (deliverOutboundPayloads (Sample.ext (Sample.failingAt 1))
         {| cfg := Sample.config None None;
            p_provider := whatsapp;
            to := lit "+1555";
            payloads := [Sample.withMedia "cap" ["a"%string; "b"%string];
                         Sample.textOnly "x"];
            deps := None;
            bestEffort := Some true;
            onError := None;
            onPayload := None |} 0)
  = Normal [{| provider := whatsapp; identifiers := 0 |};
            {| provider := whatsapp; identifiers := 2 |}].
Proof. reflexivity. Qed.

(** C6: without best effort, a send that fails is the last thing the
    call does: nothing follows it in the trace, every step before it
    went through, and the call rejects with that send's error, so that
    no list is returned: the results pushed so far, those of the sends
    before the failing one, stay in the call's own array. *)
Theorem strict_failure_rejects
    (World Exn SendResult Other : Type)
    (ext : Externals World Exn SendResult Other)
    (params : Params World Exn SendResult Other)
    (w : World) pre c e post :
  isBestEffort params = false ->
  trace (fst (deliverOutboundPayloads ext params w))
    = pre ++ EvSend c (Throw e) :: post ->
  snd (deliverOutboundPayloads ext params w) = Throw e
  /\ post = []
  /\ quiet pre = true
  /\ results (fst (deliverOutboundPayloads ext params w)) = resultsOf pre.
Proof.
  intros Hb. unfold deliverOutboundPayloads.
  destruct (@emits_deliverLoop_strict _ _ _ _ ext params (fun _ => True)
              (fun _ _ => I)
              (normalizeOutboundPayloads (payloads params)) Hb (initial w))
    as [evs [T [R [_ C]]]].
  destruct (deliverLoop _ _ _ _) as [s [[]|e']]; simpl in *; intros E.
  - rewrite T in E.
    now pose proof (quiet_all _ _ _ C E).
  - destruct C as [pre' [fail [-> [Q Hf]]]]. rewrite T in E.
    destruct (@quiet_split_unique _ _ pre' pre post fail
                (EvSend c (Throw e)) Q eq_refl (eq_sym E)) as [-> [-> <-]].
    simpl in Hf. injection Hf as ->. rewrite R, resultsOf_app. simpl.
    rewrite app_nil_r. auto.
Qed.

Lemma strict_failure_rejects_witness :
  let ext := Sample.ext (Sample.failingAt 1) in
  let params :=
    Sample.call whatsapp
      [Sample.textOnly "a"; Sample.textOnly "b"; Sample.textOnly "c"] None in
  snd (deliverOutboundPayloads ext params 0) = Throw (lit "fail")
  /\ @nil (Event Sample.Exn Sample.SendResult) = []
  /\ quiet [@EvSend Sample.Exn Sample.SendResult
              (sendCall ext params (lit "a") None) (Normal 0)] = true
  /\ results (fst (deliverOutboundPayloads ext params 0)) =
     resultsOf [@EvSend Sample.Exn Sample.SendResult
                  (sendCall ext params (lit "a") None) (Normal 0)].
Proof.
  apply (@strict_failure_rejects _ _ _ _
           (Sample.ext (Sample.failingAt 1))
           (Sample.call whatsapp
              [Sample.textOnly "a"; Sample.textOnly "b"; Sample.textOnly "c"]
              None)
           0 _
           (sendCall (Sample.ext (Sample.failingAt 1))
              (Sample.call whatsapp
                 [Sample.textOnly "a"; Sample.textOnly "b";
                  Sample.textOnly "c"] None)
              (lit "b") None));
    reflexivity.
Defined.

Lemma urlOf_sendCall
    (World Exn SendResult Other : Type)
    (ext : Externals World Exn SendResult Other)
    (params : Params World Exn SendResult Other) t u :
  urlOf (sendCall ext params t (Some u)) = Some u.
Proof.
  unfold urlOf, sendCall, sendOptions, branch.
  now destruct (p_provider params).
Qed.

(** The [try] block of a payload with media: its media sends go out one
    per URL, in the order of the list and up to the first one that
    fails; the first carries the payload's text, each later one the
    empty caption; when the block completes, they are exactly one per
    URL, and it completes whenever the send function and [onPayload]
    return. *)
Lemma tryBody_media_sends
    (World Exn SendResult Other : Type)
    (ext : Externals World Exn SendResult Other)
    (params : Params World Exn SendResult Other)
    (payload : NormalizedOutboundPayload)
    (s : DState World Exn SendResult) :
  mediaUrls payload <> [] ->
  let out := tryBody ext params payload s in
  let expected := mediaCalls ext params payload in
  exists evs,
    trace (fst out) = trace s ++ evs
    /\ length expected = length (mediaUrls payload)
    /\ map urlOf expected = map Some (mediaUrls payload)
    /\ map call_text expected =
         text payload :: repeat [] (length (mediaUrls payload) - 1)
    /\ (exists k, sendCallsOf evs = firstn k expected)
    /\ (snd out = Normal tt -> sendCallsOf evs = expected)
    /\ (SendsReturn ext params -> OnPayloadReturns params ->
        snd out = Normal tt).
Proof.
  intros Hne. simpl. unfold mediaCalls.
  destruct (mediaUrls payload) as [|u rest] eqn:Hm; [congruence|].
  rewrite (tryBody_media ext params payload s Hm). unfold bind.
  destruct (callOnPayload_run params payload s) as [evs0 [T0 [S0 L0]]].
  assert (Hlen : length (sendCall ext params (text payload) (Some u)
                   :: map (fun u' => sendCall ext params [] (Some u')) rest)
                 = length (u :: rest))
    by (simpl; now rewrite length_map).
  assert (Hurl : map urlOf (sendCall ext params (text payload) (Some u)
                   :: map (fun u' => sendCall ext params [] (Some u')) rest)
                 = map Some (u :: rest)).
  { simpl. rewrite urlOf_sendCall, map_map. f_equal.
    apply map_ext. intros a. apply urlOf_sendCall. }
  assert (Htxt : map call_text (sendCall ext params (text payload) (Some u)
                   :: map (fun u' => sendCall ext params [] (Some u')) rest)
                 = text payload :: repeat [] (length (u :: rest) - 1)).
  { simpl. rewrite Nat.sub_0_r, map_map. f_equal. clear.
    induction rest as [|a rest IH]; [reflexivity|].
    change (call_text (sendCall ext params [] (Some a))
              :: map (fun x => call_text (sendCall ext params [] (Some x)))
                   rest
            = [] :: repeat [] (length rest)).
    now rewrite IH. }
  destruct (callOnPayload params payload s) as [s1 [[]|e]]; simpl in *.
  - destruct (sendMediaLoop_calls ext params (text payload) (u :: rest)
                true s1) as [evs [T [K [_ [N L]]]]].
    simpl in *. exists (evs0 ++ evs).
    rewrite T, T0, sendCallsOf_app, S0, app_assoc. simpl.
    repeat split; auto.
  - exists evs0. rewrite S0.
    split; [exact T0|]. split; [exact Hlen|]. split; [exact Hurl|].
    split; [exact Htxt|]. split; [now exists 0|]. split; [discriminate|].
    intros _ H. specialize (L0 H). discriminate.
Qed.

Lemma tryBody_media_sends_example :
  let ext := Sample.ext Sample.neverFails in
  let params := Sample.call slack [] None in
  let payload := {| text := lit "cap";
                    mediaUrls := [lit "a"; lit "b"; lit "c"] |} in
  let out := tryBody ext params payload (initial 0) in
  let expected := mediaCalls ext params payload in
  exists evs,
    trace (fst out) = trace (initial 0) ++ evs
    /\ length expected = length (mediaUrls payload)
    /\ map urlOf expected = map Some (mediaUrls payload)
    /\ map call_text expected =
         text payload :: repeat [] (length (mediaUrls payload) - 1)
    /\ (exists k, sendCallsOf evs = firstn k expected)
    /\ (snd out = Normal tt -> sendCallsOf evs = expected)
    /\ (SendsReturn ext params -> OnPayloadReturns params ->
        snd out = Normal tt).
Proof.
  apply (@tryBody_media_sends _ _ _ _ (Sample.ext Sample.neverFails)
           (Sample.call slack [] None)
           {| text := lit "cap"; mediaUrls := [lit "a"; lit "b"; lit "c"] |}
           (initial 0)).
  discriminate.
Defined.

(** C9, as stated, fails: a provider value of zero is present, and the
    ceiling is the agent-wide one. *)
Lemma zero_megabytes_falls_back :
  let cfg := Sample.config (Some 0%Z) (Some 3%Z) in
  resolveSignalMaxBytes cfg = Some 3145728%Z
  /\ maxBytes_spec (cfg_signal cfg) (cfg_agent cfg) = Some 0%Z
  /\ resolveSignalMaxBytes cfg
     <> maxBytes_spec (cfg_signal cfg) (cfg_agent cfg).
Proof. repeat split; try reflexivity. vm_compute. discriminate. Qed.

(** C9, amended: every send call of a delivery to signal, or to
    imessage, carries as byte ceiling the provider's megabyte value
    times 1,048,576 when that value is present and not zero, else the
    agent-wide megabyte value times 1,048,576 when that one is present
    and not zero, else none; the calls to any other provider carry no
    ceiling. *)
Theorem media_ceiling
    (World Exn SendResult Other : Type)
    (ext : Externals World Exn SendResult Other)
    (params : Params World Exn SendResult Other) (w : World) :
  Forall
    (fun c =>
       ceilingOf c =
       match p_provider params with
       | signal =>
           maxBytes_nonzero (cfg_signal (cfg params)) (cfg_agent (cfg params))
       | imessage =>
           maxBytes_nonzero (cfg_imessage (cfg params))
             (cfg_agent (cfg params))
       | _ => None
       end)
    (sendCallsOf (trace (fst (deliverOutboundPayloads ext params w)))).
Proof.
  apply calls_deliver. intros text url.
  unfold ceilingOf, sendCall, sendOptions, branch,
    signalMaxBytes, imessageMaxBytes.
  destruct (p_provider params); try reflexivity.
  now destruct url.
Qed.



(** ** The scenarios of the repository's tests, on the sample
    collaborators *)

(** Telegram, limit 2, text "abcd": two sends, each with the resolved
    token, and two results. *)
Example telegram_chunks_with_token :
  let out :=
    deliverOutboundPayloads (Sample.ext Sample.neverFails)
      (Sample.call telegram [Sample.textOnly "abcd"] None) 0 in
  map (fun c => (call_text c, option_map token (call_opts c)))
      (sendCallsOf (trace (fst out)))
    = [(lit "ab", Some (Some (lit "tok-1")));
       (lit "cd", Some (Some (lit "tok-1")))]
  /\ snd out = Normal [{| provider := telegram; identifiers := 0 |};
                       {| provider := telegram; identifiers := 1 |}].
Proof. split; reflexivity. Qed.

(** Signal, 2 MB configured, one media URL: one send with the URL and a
    ceiling of 2 * 1024 * 1024 bytes. *)
Example signal_media_ceiling :
  let out :=
    deliverOutboundPayloads (Sample.ext Sample.neverFails)
      (Sample.call signal
         [{| rp_text := Some (lit "hi");
             rp_mediaUrl := Some (lit "https://x.test/a.jpg");
             rp_mediaUrls := None |}] None) 0 in
  map (fun c => (call_text c, urlOf c, ceilingOf c))
      (sendCallsOf (trace (fst out)))
    = [(lit "hi", Some (lit "https://x.test/a.jpg"),
        Some (2 * 1024 * 1024)%Z)].
Proof. reflexivity. Qed.

(** iMessage without a value of its own, 3 MB agent-wide. *)
Example imessage_agent_fallback :
  let out :=
    deliverOutboundPayloads (Sample.ext Sample.neverFails)
      (Sample.callWith (Sample.config None (Some 3%Z)) imessage
         [Sample.textOnly "hello"] None) 0 in
  map ceilingOf (sendCallsOf (trace (fst out)))
    = [Some (3 * 1024 * 1024)%Z; Some (3 * 1024 * 1024)%Z; 
       Some (3 * 1024 * 1024)%Z].
Proof. reflexivity. Qed.

(** Two payloads under best effort, the first send failing: one
    [onError] call and the result of the second payload only. *)
Example best_effort_continues :
  let out :=
    deliverOutboundPayloads (Sample.ext (Sample.failingAt 0))
      (Sample.callWith (Sample.config None None) discord
         [Sample.textOnly "a"; Sample.textOnly "b"] (Some true)) 0 in
  length (sendCallsOf (trace (fst out))) = 2
  /\ onErrorCallsOf (trace (fst out))
     = [(lit "fail", {| text := lit "a"; mediaUrls := [] |})]
  /\ snd out = Normal [{| provider := discord; identifiers := 1 |}].
Proof. repeat split; reflexivity. Qed.

(** * Further properties *)

(** ** Payload normaliser *)

(** X1: no payload leaves the normaliser with both an empty text and an
    empty media list, and the normaliser never adds entries. *)
Theorem normalized_never_empty (raw : list ReplyPayload) :
  Forall (fun q => text q <> [] \/ mediaUrls q <> [])
    (normalizeOutboundPayloads raw)
  /\ length (normalizeOutboundPayloads raw) <= length raw.
Proof.
  split.
  - apply Forall_forall. intros q Hq.
    apply normalize_in in Hq as [p [_ [_ Hk]]].
    unfold keepNormalized in Hk.
    destruct (text q); [right | left; discriminate].
    destruct (mediaUrls q); [discriminate | discriminate].
  - unfold normalizeOutboundPayloads.
    rewrite <- (length_map normalizeOne raw). apply filter_length_le.
Qed.

(** X2: an explicit [mediaUrls] list is taken as it is, the empty one
    included: a payload with the empty list and no text is dropped
    whatever its [mediaUrl], and its neighbours are not affected. *)
Theorem empty_list_shadows_mediaUrl
    (before after : list ReplyPayload) (p : ReplyPayload) :
  rp_mediaUrls p = Some [] ->
  rp_text p = None \/ rp_text p = Some [] ->
  normalizeOutboundPayloads (before ++ p :: after)
  = normalizeOutboundPayloads before ++ normalizeOutboundPayloads after.
Proof.
  intros Hm Ht.
  change (p :: after) with ([p] ++ after).
  rewrite !normalize_app. f_equal.
  unfold normalizeOutboundPayloads, normalizeOne, keepNormalized. simpl.
  rewrite Hm. now destruct Ht as [-> | ->].
Qed.

Lemma empty_list_shadows_mediaUrl_witness :
  normalizeOutboundPayloads
    ([Sample.textOnly "a"]
       ++ {| rp_text := None; rp_mediaUrl := Some (lit "https://x.test/a.jpg");
             rp_mediaUrls := Some [] |}
       :: [Sample.textOnly "b"])
  = normalizeOutboundPayloads [Sample.textOnly "a"]
      ++ normalizeOutboundPayloads [Sample.textOnly "b"].
Proof.
  apply empty_list_shadows_mediaUrl; [reflexivity | now left].
Defined.

(** ** Byte ceilings *)

Lemma truthyMaxMb_nonzero section v : truthyMaxMb section = Some v -> v <> 0%Z.
Proof.
  unfold truthyMaxMb. destruct section as [sec|]; [|discriminate].
  destruct (mediaMaxMb sec) as [x|]; [|discriminate].
  destruct (x =? 0)%Z eqn:E; [discriminate|].
  intros H. injection H as <-. now apply Z.eqb_neq.
Qed.

(** X3: a resolved byte ceiling is never zero: it is a non-zero number of
    megabytes times 1,048,576; and there is none exactly when neither the
    provider's nor the agent-wide value is present and non-zero. *)
Theorem ceiling_never_zero (Other : Type) (cfg : ClawdbotConfig Other) :
  (forall b,
     resolveSignalMaxBytes cfg = Some b
     \/ resolveIMessageMaxBytes cfg = Some b ->
     b <> 0%Z /\ exists v, v <> 0%Z /\ b = (v * 1048576)%Z)
  /\ (resolveSignalMaxBytes cfg = None <->
      truthyMaxMb (cfg_signal cfg) = None
      /\ truthyMaxMb (cfg_agent cfg) = None)
  /\ (resolveIMessageMaxBytes cfg = None <->
      truthyMaxMb (cfg_imessage cfg) = None
      /\ truthyMaxMb (cfg_agent cfg) = None).
Proof.
  unfold resolveSignalMaxBytes, resolveIMessageMaxBytes, MB.
  split; [|split].
  - assert (K : forall v b, v <> 0%Z -> Some (v * (1024 * 1024))%Z = Some b ->
                b <> 0%Z /\ exists v', v' <> 0%Z /\ b = (v' * 1048576)%Z).
    { intros v b Hv H. injection H as <-. split; [lia|]. exists v.
      split; [exact Hv | reflexivity]. }
    intros b [H | H].
    + destruct (truthyMaxMb (cfg_signal cfg)) as [v|] eqn:E1.
      * apply (K v b); [now apply truthyMaxMb_nonzero in E1 | exact H].
      * destruct (truthyMaxMb (cfg_agent cfg)) as [v|] eqn:E2;
          [|discriminate].
        apply (K v b); [now apply truthyMaxMb_nonzero in E2 | exact H].
    + destruct (truthyMaxMb (cfg_imessage cfg)) as [v|] eqn:E1.
      * apply (K v b); [now apply truthyMaxMb_nonzero in E1 | exact H].
      * destruct (truthyMaxMb (cfg_agent cfg)) as [v|] eqn:E2;
          [|discriminate].
        apply (K v b); [now apply truthyMaxMb_nonzero in E2 | exact H].
  - destruct (truthyMaxMb (cfg_signal cfg));
      destruct (truthyMaxMb (cfg_agent cfg));
      split; try tauto; try discriminate; intros [H1 H2]; discriminate.
  - destruct (truthyMaxMb (cfg_imessage cfg));
      destruct (truthyMaxMb (cfg_agent cfg));
      split; try tauto; try discriminate; intros [H1 H2]; discriminate.
Qed.

Lemma ceiling_never_zero_witness :
  (2097152 <> 0)%Z /\ exists v, v <> 0%Z /\ 2097152%Z = (v * 1048576)%Z.
Proof.
  apply (proj1 (ceiling_never_zero (Sample.config (Some 2%Z) None))).
  left. reflexivity.
Defined.

(** ** Outbound dispatcher *)

Lemma resultsOf_providers (Exn SendResult : Type)
    (evs : list (Event Exn SendResult)) b :
  Forall (fun c => call_fn c = b) (sendCallsOf evs) ->
  Forall (fun r => provider r = b) (resultsOf evs).
Proof.
  induction evs as [|ev evs IH]; simpl; intros H; [constructor|].
  destruct ev as [c [res|e]|p r|e p r]; simpl in *; auto.
  - inversion H; subst. constructor; auto.
  - inversion H; subst. auto.
Qed.

Lemma quiet_results_length (Exn SendResult : Type)
    (evs : list (Event Exn SendResult)) :
  quiet evs = true -> length (resultsOf evs) = length (sendCallsOf evs).
Proof.
  induction evs as [|ev evs IH]; simpl; intros H; [reflexivity|].
  apply andb_prop in H as [H1 H2].
  destruct ev as [c [res|e]|p [[]|e]|e p r]; simpl in *;
    try discriminate; auto.
Qed.

(** X4: when normalisation leaves nothing, the call makes no send and
    no callback, leaves the world as it is and returns the empty list,
    in either mode. *)
Theorem nothing_to_deliver
    (World Exn SendResult Other : Type)
    (ext : Externals World Exn SendResult Other)
    (params : Params World Exn SendResult Other) (w : World) :
  forallb (fun p => negb (keepNormalized (normalizeOne p))) (payloads params)
    = true ->
  deliverOutboundPayloads ext params w = (initial w, Normal []).
Proof.
  intros H. unfold deliverOutboundPayloads.
  assert (E : normalizeOutboundPayloads (payloads params) = []).
  { unfold normalizeOutboundPayloads.
    induction (payloads params) as [|p ps IH]; simpl in *; auto.
    apply andb_prop in H as [H1 H2].
    destruct (keepNormalized (normalizeOne p)); [discriminate|]. auto. }
  now rewrite E.
Qed.

Lemma nothing_to_deliver_witness :
  deliverOutboundPayloads (Sample.ext (Sample.failingAt 0))
    (Sample.call whatsapp
       [Sample.textOnly "";
        {| rp_text := None; rp_mediaUrl := Some []; rp_mediaUrls := None |}]
       None) 0
  = (initial 0, Normal []).
Proof. apply nothing_to_deliver. reflexivity. Defined.

(** X5: every send of a call goes to the call's destination through the
    send function of the one branch the provider selects (discord's for
    a provider outside the five named ones), and the tag written into
    every result, returned or not, is that branch's; the provider a
    reader of a result gets is therefore that tag, unless the send
    result has a [provider] key of its own, which the spread puts in
    its place. *)
Theorem sends_stay_on_target
    (World Exn SendResult Other : Type)
    (ext : Externals World Exn SendResult Other)
    (params : Params World Exn SendResult Other) (w : World)
    (ownKey : SendResult -> option OutboundProvider) :
  let out := deliverOutboundPayloads ext params w in
  let reads r :=
    providerRead ownKey r =
    match ownKey (identifiers r) with
    | Some own => own
    | None => branch params
    end in
  Forall (fun c => call_to c = to params /\ call_fn c = branch params)
    (sendCallsOf (trace (fst out)))
  /\ Forall (fun r => provider r = branch params /\ reads r)
       (results (fst out))
  /\ (forall l, snd out = Normal l ->
      Forall (fun r => provider r = branch params /\ reads r) l).
Proof.
  simpl.
  destruct (@calls_deliver _ _ _ _ ext params
              (fun c => call_to c = to params /\ call_fn c = branch params)
              (fun _ _ => conj eq_refl eq_refl) w) as [F [R N]].
  assert (G : Forall
                (fun r => provider r = branch params
                          /\ providerRead ownKey r =
                             match ownKey (identifiers r) with
                             | Some own => own
                             | None => branch params
                             end)
                (resultsOf
                   (trace (fst (deliverOutboundPayloads ext params w))))).
  { eapply Forall_impl;
      [|apply (@resultsOf_providers _ _ _ (branch params));
        eapply Forall_impl; [|exact F]; now intros c [_ H]].
    intros r Hr. split; [exact Hr|]. unfold providerRead. now rewrite Hr. }
  split; [exact F|]. split.
  - now rewrite R.
  - intros l H. now rewrite (N l H).
Qed.

(** A send result with a [provider] key of its own: the tag written is
    whatsapp, the provider read is the key's. *)
Example own_provider_key_wins :
  let send : SendFn nat JsString (option OutboundProvider * nat) :=
    fun _ _ _ w => (S w, Normal (Some telegram, w)) in
  let ext : Externals nat JsString (option OutboundProvider * nat) unit :=
    {| applyChunker := fun _ t _ => [t];
       resolveTextChunkLimit := fun _ _ => None;
       resolveTelegramToken := fun _ => [];
       sendMessageWhatsApp := send; sendMessageTelegram := send;
       sendMessageDiscord := send; sendMessageSlack := send;
       sendMessageSignal := send; sendMessageIMessage := send |} in
  let params : Params nat JsString (option OutboundProvider * nat) unit :=
    {| cfg := Sample.config None None; p_provider := whatsapp;
       to := lit "+1555"; payloads := [Sample.textOnly "a"];
       deps := None; bestEffort := None; onError := None;
       onPayload := None |} in
  option_map
    (fun l => (map (fun r => provider r) l, map (providerRead fst) l))
    (match snd (deliverOutboundPayloads ext params 0) with
     | Normal l => Some l
     | Throw _ => None
     end)
  = Some ([whatsapp], [telegram]).
Proof. reflexivity. Qed.

(** X6: a send carries a token only in a delivery to telegram, and then
    the resolved one when it is not empty; an empty resolved token is
    passed as no token. *)
Theorem token_only_for_telegram
    (World Exn SendResult Other : Type)
    (ext : Externals World Exn SendResult Other)
    (params : Params World Exn SendResult Other) (w : World) :
  Forall
    (fun c =>
       tokenOf c =
       match p_provider params with
       | telegram =>
           match resolveTelegramToken ext (cfg params) with
           | [] => None
           | t => Some t
           end
       | _ => None
       end)
    (sendCallsOf (trace (fst (deliverOutboundPayloads ext params w)))).
Proof.
  apply calls_deliver. intros text url.
  unfold tokenOf, sendCall, sendOptions, branch, telegramToken.
  destruct (p_provider params); try reflexivity.
  - simpl. now destruct (resolveTelegramToken ext (cfg params)).
  - now destruct url.
Qed.

(** X8: without best effort the call returns a list exactly when no
    step failed; the list then has one result per send call made. *)
Theorem strict_returns_iff_quiet
    (World Exn SendResult Other : Type)
    (ext : Externals World Exn SendResult Other)
    (params : Params World Exn SendResult Other) (w : World) :
  isBestEffort params = false ->
  let out := deliverOutboundPayloads ext params w in
  ((exists l, snd out = Normal l) <-> quiet (trace (fst out)) = true)
  /\ (forall l, snd out = Normal l ->
      length l = length (sendCallsOf (trace (fst out)))).
Proof.
  intros Hb. simpl. unfold deliverOutboundPayloads.
  destruct (@emits_deliverLoop_strict _ _ _ _ ext params (fun _ => True)
              (fun _ _ => I)
              (normalizeOutboundPayloads (payloads params)) Hb (initial w))
    as [evs [T [R [_ C]]]].
  destruct (deliverLoop _ _ _ _) as [s [[]|e]]; simpl in *.
  - rewrite T. split.
    + split; [now intros _ | intros _; now exists (results s)].
    + intros l H. injection H as <-. rewrite R.
      now apply quiet_results_length.
  - rewrite T. destruct C as [pre [fail [-> [Q Hf]]]]. split.
    + split.
      * intros [l H]. discriminate.
      * intros H. rewrite quiet_app in H. apply andb_prop in H as [_ H].
        simpl in H. rewrite (failure_not_quiet _ Hf) in H. discriminate.
    + intros l H. discriminate.
Qed.

Lemma strict_returns_iff_quiet_witness :
  let out :=
    deliverOutboundPayloads (Sample.ext Sample.neverFails)
      (Sample.call telegram [Sample.textOnly "abcd"] None) 0 in
  ((exists l, snd out = Normal l) <-> quiet (trace (fst out)) = true)
  /\ (forall l, snd out = Normal l ->
      length l = length (sendCallsOf (trace (fst out)))).
Proof.
  apply (@strict_returns_iff_quiet _ _ _ _ (Sample.ext Sample.neverFails)
           (Sample.call telegram [Sample.textOnly "abcd"] None) 0).
  reflexivity.
Defined.

Section MoreDispatcherFacts.

Variables (World Exn SendResult Other : Type).
Variable ext : Externals World Exn SendResult Other.
Variable params : Params World Exn SendResult Other.

Lemma sendText_as_forEach text s :
  sendText ext params text s = forEach (sendText ext params) [text] s.
Proof.
  simpl. unfold bind.
  now destruct (sendText ext params text s) as [s1 [[]|e]].
Qed.

Lemma sendTextChunks_forEach text s :
  sendTextChunks ext params text s
  = forEach (sendText ext params) (textsToSend ext params text) s.
Proof.
  unfold sendTextChunks, textsToSend.
  destruct (chunker params); [destruct (textLimit ext params)|];
    try reflexivity; apply sendText_as_forEach.
Qed.

Lemma forEach_sendText_calls (chunks : list JsString) :
  forall s : DState World Exn SendResult,
  let expected := map (fun t => sendCall ext params t None) chunks in
  let out := forEach (sendText ext params) chunks s in
  exists evs,
    trace (fst out) = trace s ++ evs
    /\ (exists k, sendCallsOf evs = firstn k expected)
    /\ (snd out = Normal tt -> sendCallsOf evs = expected)
    /\ (SendsReturn ext params -> snd out = Normal tt).
Proof.
  induction chunks as [|t rest IH]; intros s; simpl.
  - exists []. rewrite app_nil_r. repeat split; auto. now exists 0.
  - unfold bind. rewrite sendText_send, send_run.
    destruct (sendFnOf _ _ _ _ _ _ _) as [w [res|e]] eqn:E.
    + match goal with
      | |- context [forEach _ _ ?st] =>
          destruct (IH st) as [evs [T [[k K] [N L]]]]
      end.
      simpl in T. eexists (_ :: evs). rewrite T, <- app_assoc. simpl.
      repeat split; auto.
      * exists (S k). simpl. now rewrite K.
      * intros H. now rewrite N.
    + eexists [_]. simpl. repeat split; auto.
      * now exists 1.
      * discriminate.
      * intros H. destruct (H t (sendOptions ext params (branch params) None)
                              (world s)) as [w' [res E']].
        congruence.
Qed.

Lemma forEach_returns A (body : A -> M World Exn SendResult unit) xs :
  (forall x s, snd (body x s) = Normal tt) ->
  forall s, snd (forEach body xs s) = Normal tt.
Proof.
  intros H. induction xs as [|x xs IH]; intros s; simpl; auto.
  unfold bind. specialize (H x s).
  destruct (body x s) as [s1 [[]|e]]; simpl in *; [apply IH | discriminate].
Qed.

Lemma deliverOne_throws payload s e :
  isBestEffort params = true ->
  snd (deliverOne ext params payload s) = Throw e ->
  exists f e0 w, onError params = Some f /\ snd (f e0 payload w) = Throw e.
Proof.
  intros Hb. unfold deliverOne, tryCatch, catchBody, callOnError.
  rewrite Hb.
  destruct (tryBody ext params payload s) as [s1 [[]|e1]]; simpl;
    [discriminate|].
  destruct (onError params) as [f|]; simpl; [|discriminate].
  destruct (f e1 payload (world s1)) as [w1 r] eqn:E. simpl.
  intros ->. exists f, e1, (world s1). split; [reflexivity|].
  now rewrite E.
Qed.

(** *** Calls of [onPayload] *)

Lemma silent_ret A (a : A) : Silent (ret a : M World Exn SendResult A).
Proof. intros s. exists []. simpl. now rewrite app_nil_r. Qed.

Lemma silent_bind A B (m : M World Exn SendResult A)
    (k : A -> M World Exn SendResult B) :
  Silent m -> (forall a, Silent (k a)) -> Silent (bind m k).
Proof.
  intros Hm Hk s. unfold bind.
  destruct (Hm s) as [evs1 [T1 S1]].
  destruct (m s) as [s1 [a|e]]; simpl in *.
  - destruct (Hk a s1) as [evs2 [T2 S2]].
    exists (evs1 ++ evs2).
    now rewrite T2, T1, flat_map_app, S1, S2, app_assoc.
  - now exists evs1.
Qed.

Lemma silent_send text url : Silent (send ext params text url).
Proof.
  intros s. rewrite send_run.
  destruct (sendFnOf _ _ _ _ _ _ _) as [w [res|e]]; simpl;
    eexists [_]; split; reflexivity.
Qed.

Lemma silent_forEach A (body : A -> M World Exn SendResult unit) xs :
  (forall x, Silent (body x)) -> Silent (forEach body xs).
Proof.
  intros H. induction xs as [|x xs IH]; simpl.
  - apply silent_ret.
  - apply silent_bind; auto.
Qed.

Lemma silent_ext A (m m' : M World Exn SendResult A) :
  (forall s, m s = m' s) -> Silent m' -> Silent m.
Proof. intros E H s. rewrite E. apply H. Qed.

Lemma silent_sends payload :
  Silent (match mediaUrls payload with
          | [] => sendTextChunks ext params (text payload)
          | urls => sendMediaLoop ext params (text payload) true urls
          end).
Proof.
  destruct (mediaUrls payload) as [|u rest].
  - eapply silent_ext; [apply sendTextChunks_forEach|].
    apply silent_forEach. intros t.
    eapply silent_ext; [apply sendText_send | apply silent_send].
  - generalize true. generalize (u :: rest). clear u rest.
    intros urls. induction urls as [|u urls IH]; intros first; simpl.
    + apply silent_ret.
    + apply silent_bind; [|auto].
      eapply silent_ext; [apply sendMedia_send | apply silent_send].
Qed.

Lemma callOnPayload_once f payload s :
  onPayload params = Some f ->
  exists evs,
    trace (fst (callOnPayload params payload s)) = trace s ++ evs
    /\ onPayloadCallsOf evs = [payload].
Proof.
  intros Hf. unfold callOnPayload. rewrite Hf.
  destruct (f payload (world s)) as [w r]. simpl.
  now exists [EvOnPayload payload r].
Qed.

Lemma silent_catchBody payload e : Silent (catchBody params payload e).
Proof.
  unfold catchBody, callOnError, throw. intros s.
  destruct (isBestEffort params); [destruct (onError params) as [g|]|].
  - destruct (g e payload (world s)) as [w r]. simpl.
    now exists [EvOnError e payload r].
  - exists []. simpl. now rewrite app_nil_r.
  - exists []. simpl. now rewrite app_nil_r.
Qed.

Lemma tryBody_onPayload f payload s :
  onPayload params = Some f ->
  exists evs,
    trace (fst (tryBody ext params payload s)) = trace s ++ evs
    /\ onPayloadCallsOf evs = [payload].
Proof.
  intros Hf. unfold tryBody, bind.
  destruct (callOnPayload_once payload s Hf) as [evs0 [T0 S0]].
  destruct (callOnPayload params payload s) as [s1 [[]|e]]; simpl in T0.
  - destruct (silent_sends payload s1) as [evs [T S]].
    exists (evs0 ++ evs). rewrite T, T0, app_assoc.
    split; [reflexivity|].
    unfold onPayloadCallsOf in *. now rewrite flat_map_app, S0, S.
  - now exists evs0.
Qed.

Lemma deliverOne_onPayload f payload s :
  onPayload params = Some f ->
  exists evs,
    trace (fst (deliverOne ext params payload s)) = trace s ++ evs
    /\ onPayloadCallsOf evs = [payload].
Proof.
  intros Hf. unfold deliverOne, tryCatch.
  destruct (tryBody_onPayload payload s Hf) as [evs0 [T0 S0]].
  destruct (tryBody ext params payload s) as [s1 [[]|e]]; simpl in T0.
  - now exists evs0.
  - destruct (silent_catchBody payload e s1) as [evs [T S]].
    exists (evs0 ++ evs). rewrite T, T0, app_assoc.
    split; [reflexivity|].
    unfold onPayloadCallsOf in *. now rewrite flat_map_app, S0, S.
Qed.

Lemma deliverLoop_onPayload f ps :
  onPayload params = Some f ->
  forall s,
  let out := deliverLoop ext params ps s in
  exists evs,
    trace (fst out) = trace s ++ evs
    /\ (exists k, onPayloadCallsOf evs = firstn k ps)
    /\ (snd out = Normal tt -> onPayloadCallsOf evs = ps).
Proof.
  intros Hf. unfold deliverLoop.
  induction ps as [|p ps IH]; intros s; simpl.
  - exists []. rewrite app_nil_r. repeat split; auto. now exists 0.
  - unfold bind.
    destruct (deliverOne_onPayload p s Hf) as [evs1 [T1 S1]].
    destruct (deliverOne ext params p s) as [s1 [[]|e]]; simpl in *.
    + destruct (IH s1) as [evs2 [T2 [[k K] N]]].
      exists (evs1 ++ evs2).
      unfold onPayloadCallsOf in *.
      rewrite T2, T1, flat_map_app, S1, app_assoc. simpl.
      repeat split.
      * exists (S k). simpl. now rewrite K.
      * intros H. now rewrite (N H).
    + exists evs1. rewrite S1. repeat split; auto.
      * now exists 1.
      * discriminate.
Qed.

End MoreDispatcherFacts.



(** X9: under best effort the call rejects only with what [onError]
    throws: when that callback is absent, or never throws, every call
    returns a list, whatever the send functions and [onPayload] do. *)
Theorem best_effort_never_rejects
    (World Exn SendResult Other : Type)
    (ext : Externals World Exn SendResult Other)
    (params : Params World Exn SendResult Other) (w : World) :
  isBestEffort params = true ->
  OnErrorReturns params ->
  exists l, snd (deliverOutboundPayloads ext params w) = Normal l.
Proof.
  intros Hb Hr. unfold deliverOutboundPayloads.
  assert (H : snd (deliverLoop ext params
                     (normalizeOutboundPayloads (payloads params))
                     (initial w)) = Normal tt).
  { apply forEach_returns. intros p s.
    destruct (snd (deliverOne ext params p s)) as [[]|e] eqn:E;
      [reflexivity|].
    destruct (deliverOne_throws ext params p s Hb E) as [f [e0 [w0 [Hf Ht]]]].
    rewrite (Hr f Hf e0 p w0) in Ht. discriminate. }
  destruct (deliverLoop _ _ _ _) as [s [[]|e]]; simpl in *.
  - now exists (results s).
  - discriminate.
Qed.

Lemma best_effort_never_rejects_witness :
  exists l,
    snd (deliverOutboundPayloads (Sample.ext (Sample.failingAt 0))
           {| cfg := Sample.config None None;
              p_provider := slack;
              to := lit "C123";
              payloads := [Sample.textOnly "a"; Sample.textOnly "b"];
              deps := None;
              bestEffort := Some true;
              onError := None;
              onPayload := None |} 0) = Normal l.
Proof.
  apply best_effort_never_rejects; [reflexivity|].
  intros f H. discriminate.
Defined.

(** X10: [onPayload] is called once on each normalised payload the loop
    reaches, in order and before anything else is done for it, under
    either mode and whether or not the payload then fails; a call that
    returns a list has called it on every normalised payload. *)
Theorem onPayload_once_each
    (World Exn SendResult Other : Type)
    (ext : Externals World Exn SendResult Other)
    (params : Params World Exn SendResult Other)
    (f : NormalizedOutboundPayload -> World -> World * Completion Exn unit)
    (w : World) :
  onPayload params = Some f ->
  let out := deliverOutboundPayloads ext params w in
  let ps := normalizeOutboundPayloads (payloads params) in
  (exists k, onPayloadCallsOf (trace (fst out)) = firstn k ps)
  /\ (forall l, snd out = Normal l ->
      onPayloadCallsOf (trace (fst out)) = ps).
Proof.
  intros Hf. simpl. unfold deliverOutboundPayloads.
  destruct (@deliverLoop_onPayload _ _ _ _ ext params f
              (normalizeOutboundPayloads (payloads params)) Hf (initial w))
    as [evs [T [K N]]].
  destruct (deliverLoop _ _ _ _) as [s [[]|e]]; simpl in *; rewrite T.
  - split; [exact K|]. intros l _. now apply N.
  - split; [exact K|]. discriminate.
Qed.

Lemma onPayload_once_each_witness :
  let params :=
    {| cfg := Sample.config None None;
       p_provider := discord;
       to := lit "C123";
       payloads := [Sample.textOnly "a"; Sample.textOnly "";
                    Sample.textOnly "b"];
       deps := None;
       bestEffort := Some true;
       onError := None;
       onPayload := Some (fun _ w => (w, Normal tt)) |} in
  let out :=
    deliverOutboundPayloads (Sample.ext (Sample.failingAt 0)) params 0 in
  let ps := normalizeOutboundPayloads (payloads params) in
  (exists k, onPayloadCallsOf (trace (fst out)) = firstn k ps)
  /\ (forall l, snd out = Normal l ->
      onPayloadCallsOf (trace (fst out)) = ps).
Proof.
  apply (@onPayload_once_each _ _ _ _ (Sample.ext (Sample.failingAt 0))
           {| cfg := Sample.config None None;
              p_provider := discord;
              to := lit "C123";
              payloads := [Sample.textOnly "a"; Sample.textOnly "";
                           Sample.textOnly "b"];
              deps := None;
              bestEffort := Some true;
              onError := None;
              onPayload := Some (fun _ w => (w, Normal tt)) |}
           (fun _ w => (w, Normal tt)) 0).
  reflexivity.
Defined.

(** *** Two deliveries that behave alike *)

Section Congruence.

Variables (World Exn SendResult Other : Type).

Abbreviation Mo := (M World Exn SendResult).

Lemma bind_ext A B (m m' : Mo A) (k k' : A -> Mo B) :
  (forall s, m s = m' s) -> (forall a s, k a s = k' a s) ->
  forall s, bind m k s = bind m' k' s.
Proof.
  intros Hm Hk s. unfold bind. rewrite Hm.
  destruct (m' s) as [s1 [a|e]]; auto.
Qed.

Lemma forEach_ext A (body body' : A -> Mo unit) xs :
  (forall x s, body x s = body' x s) ->
  forall s, forEach body xs s = forEach body' xs s.
Proof.
  intros H. induction xs as [|x xs IH]; intros s; simpl; auto.
  apply bind_ext; auto.
Qed.

Lemma tryCatch_ext A (m m' : Mo A) (h h' : Exn -> Mo A) :
  (forall s, m s = m' s) -> (forall e s, h e s = h' e s) ->
  forall s, tryCatch m h s = tryCatch m' h' s.
Proof.
  intros Hm Hh s. unfold tryCatch. rewrite Hm.
  destruct (m' s) as [s1 [a|e]]; auto.
Qed.

Variables ext1 ext2 : Externals World Exn SendResult Other.
Variables params1 params2 : Params World Exn SendResult Other.

Hypothesis same_payloads : payloads params1 = payloads params2.
Hypothesis same_onPayload : onPayload params1 = onPayload params2.
Hypothesis same_onError : onError params1 = onError params2.
Hypothesis same_bestEffort : bestEffort params1 = bestEffort params2.
Hypothesis same_provider : p_provider params1 = p_provider params2.
Hypothesis same_limit : textLimit ext1 params1 = textLimit ext2 params2.
Hypothesis same_chunks :
  forall c t l, applyChunker ext1 c t l = applyChunker ext2 c t l.
Hypothesis same_sendText :
  forall t s, sendText ext1 params1 t s = sendText ext2 params2 t s.
Hypothesis same_sendMedia :
  forall c u s, sendMedia ext1 params1 c u s = sendMedia ext2 params2 c u s.

Lemma deliverOne_congruence payload s :
  deliverOne ext1 params1 payload s = deliverOne ext2 params2 payload s.
Proof.
  unfold deliverOne. apply tryCatch_ext.
  - unfold tryBody. apply bind_ext.
    + unfold callOnPayload. now rewrite same_onPayload.
    + intros _. destruct (mediaUrls payload) as [|u rest].
      * unfold sendTextChunks, chunker.
        rewrite same_provider, same_limit.
        destruct (resolveChunker (p_provider params2));
          [destruct (textLimit ext2 params2)|]; auto.
        rewrite same_chunks. now apply forEach_ext.
      * generalize true. generalize (u :: rest).
        intros urls. induction urls as [|x urls IH]; intros first s0;
          simpl; auto.
        apply bind_ext; auto.
  - intros e s0. unfold catchBody, isBestEffort, callOnError.
    now rewrite same_bestEffort, same_onError.
Qed.

Lemma deliver_congruence w :
  deliverOutboundPayloads ext1 params1 w
  = deliverOutboundPayloads ext2 params2 w.
Proof.
  unfold deliverOutboundPayloads, deliverLoop.
  rewrite same_payloads.
  now rewrite (forEach_ext _ _ _ deliverOne_congruence).
Qed.

End Congruence.

(** X11: a delivery never calls the send function of a provider other
    than its own: replacing the default send function of any other
    provider changes nothing of the call, neither the world it leaves,
    nor the calls made, nor what is returned. *)
Theorem other_senders_unused
    (World Exn SendResult Other : Type)
    (ext : Externals World Exn SendResult Other)
    (params : Params World Exn SendResult Other)
    (q : OutboundProvider) (f : SendFn World Exn SendResult) (w : World) :
  provider_eqb q (branch params) = false ->
  deliverOutboundPayloads (withSend ext q f) params w
  = deliverOutboundPayloads ext params w.
Proof.
  intros H. apply deliver_congruence; try reflexivity.
  - intros t s. revert H.
    unfold sendText, branch, dep, withSend, telegramToken, signalMaxBytes,
      imessageMaxBytes. simpl.
    destruct (p_provider params); destruct q; simpl; intros H;
      try discriminate; reflexivity.
  - intros c u s. revert H.
    unfold sendMedia, branch, dep, withSend, telegramToken, signalMaxBytes,
      imessageMaxBytes. simpl.
    destruct (p_provider params); destruct q; simpl; intros H;
      try discriminate; reflexivity.
Qed.

Lemma other_senders_unused_witness :
  deliverOutboundPayloads
    (withSend (Sample.ext Sample.neverFails) telegram (Sample.failingAt 0))
    (Sample.call signal [Sample.withMedia "hi" ["u"%string]] None) 0
  = deliverOutboundPayloads (Sample.ext Sample.neverFails)
      (Sample.call signal [Sample.withMedia "hi" ["u"%string]] None) 0.
Proof. apply other_senders_unused. reflexivity. Defined.

(** X12: a send function given in [deps] for the provider's branch
    replaces the default one altogether: the call is the call without
    [deps] made with that function as the default; without such an
    override, [deps] changes nothing. *)
Theorem deps_replace_defaults
    (World Exn SendResult Other : Type)
    (ext : Externals World Exn SendResult Other)
    (params : Params World Exn SendResult Other) (w : World) :
  (forall f, overrideFor params (branch params) = Some f ->
     deliverOutboundPayloads ext params w
     = deliverOutboundPayloads (withSend ext (branch params) f)
         (withoutDeps params) w)
  /\ (overrideFor params (branch params) = None ->
      deliverOutboundPayloads ext params w
      = deliverOutboundPayloads ext (withoutDeps params) w).
Proof.
  split.
  - intros f H. apply deliver_congruence; try reflexivity.
    + intros t s. revert H.
      unfold sendText, overrideFor, branch, dep, withSend, withoutDeps,
        telegramToken, signalMaxBytes, imessageMaxBytes. simpl.
      destruct (deps params) as [d|]; [|discriminate].
      destruct (p_provider params); simpl; intros ->; reflexivity.
    + intros c u s. revert H.
      unfold sendMedia, overrideFor, branch, dep, withSend, withoutDeps,
        telegramToken, signalMaxBytes, imessageMaxBytes. simpl.
      destruct (deps params) as [d|]; [|discriminate].
      destruct (p_provider params); simpl; intros ->; reflexivity.
  - intros H. apply deliver_congruence; try reflexivity.
    + intros t s. revert H.
      unfold sendText, overrideFor, branch, dep, withoutDeps,
        telegramToken, signalMaxBytes, imessageMaxBytes. simpl.
      destruct (deps params) as [d|]; [|reflexivity].
      destruct (p_provider params); simpl; intros ->; reflexivity.
    + intros c u s. revert H.
      unfold sendMedia, overrideFor, branch, dep, withoutDeps,
        telegramToken, signalMaxBytes, imessageMaxBytes. simpl.
      destruct (deps params) as [d|]; [|reflexivity].
      destruct (p_provider params); simpl; intros ->; reflexivity.
Qed.

Lemma deps_replace_defaults_witness :
  let params :=
    {| cfg := Sample.config None None;
       p_provider := whatsapp;
       to := lit "+1555";
       payloads := [Sample.textOnly "a"; Sample.textOnly "b"];
       deps := Some {| sendWhatsApp := Some (Sample.failingAt 1);
                       sendTelegram := None; sendDiscord := None;
                       sendSlack := None; sendSignal := None;
                       sendIMessage := None |};
       bestEffort := Some true;
       onError := None;
       onPayload := None |} in
  deliverOutboundPayloads (Sample.ext Sample.neverFails) params 0
  = deliverOutboundPayloads
      (withSend (Sample.ext Sample.neverFails) (branch params)
         (Sample.failingAt 1))
      (withoutDeps params) 0.
Proof.
  apply (proj1 (@deps_replace_defaults _ _ _ _
                  (Sample.ext Sample.neverFails)
                  {| cfg := Sample.config None None;
                     p_provider := whatsapp;
                     to := lit "+1555";
                     payloads := [Sample.textOnly "a"; Sample.textOnly "b"];
                     deps := Some {| sendWhatsApp :=
                                       Some (Sample.failingAt 1);
                                     sendTelegram := None;
                                     sendDiscord := None;
                                     sendSlack := None; sendSignal := None;
                                     sendIMessage := None |};
                     bestEffort := Some true;
                     onError := None;
                     onPayload := None |} 0)).
  reflexivity.
Defined.

(** ** Gateway target resolution *)

Lemma trimStart_fixed_head c r :
  trimStart (c :: r) = c :: r -> isWhiteSpace c = false.
Proof.
  simpl. destruct (isWhiteSpace c) eqn:E; [|reflexivity].
  intros H. destruct (trimStart_suffix r) as [pre Hp].
  rewrite H in Hp. apply (f_equal (@length N)) in Hp.
  rewrite length_app in Hp. simpl in Hp. lia.
Qed.

Lemma trimStart_snoc l c :
  isWhiteSpace c = false -> exists l', trimStart (l ++ [c]) = l' ++ [c].
Proof.
  intros Hc. induction l as [|a l [l' IH]]; simpl.
  - rewrite Hc. now exists [].
  - destruct (isWhiteSpace a).
    + now exists l'.
    + now exists (a :: l).
Qed.

Lemma trim_idempotent s : trim (trim s) = trim s.
Proof.
  unfold trim.
  assert (K : forall x, trimStart x = x -> trimStart (trimEnd x) = trimEnd x).
  { intros x Hx. destruct x as [|c r]; [reflexivity|].
    apply trimStart_fixed_head in Hx. unfold trimEnd. simpl.
    destruct (@trimStart_snoc (rev r) c Hx) as [l' ->].
    rewrite rev_app_distr. simpl. now rewrite Hx. }
  rewrite (K _ (trimStart_idem s)).
  unfold trimEnd. now rewrite rev_involutive, trimStart_idem.
Qed.

Lemma trimmed_is_trim v s :
  Gateway.trimmed v = Some s -> s <> [] /\ trim s = s.
Proof.
  intros H. split; [now apply trimmed_nonempty in H|].
  unfold Gateway.trimmed in H. destruct v as [x|]; [|discriminate].
  destruct (0 <? length (trim x)); [|discriminate].
  injection H as <-. apply trim_idempotent.
Qed.

Lemma orElse_cases (a b : option JsString) :
  (exists s, a = Some s /\ s <> [] /\ orElse a b = Some s)
  \/ (truthyOpt a = false /\ orElse a b = b).
Proof.
  unfold orElse. destruct a as [[|c r]|]; simpl; auto.
  left. exists (c :: r). repeat split. discriminate.
Qed.

(** X13: the password resolves to the explicit argument when it is not
    blank; else to the environment's password when it is not blank, in
    remote mode as well; else to the remote configuration's password in
    remote mode and to the locally configured one otherwise. *)
Theorem resolvedPassword_precedence
    (opts : Gateway.CallGatewayOptions) (amb : Gateway.Ambient) :
  (forall p, Gateway.trimmed (Gateway.password opts) = Some p ->
     Gateway.resolvedPassword opts amb = Some p)
  /\ (Gateway.trimmed (Gateway.password opts) = None ->
      (forall e, Gateway.CLAWDBOT_GATEWAY_PASSWORD amb = Some e ->
         trim e <> [] -> Gateway.resolvedPassword opts amb = Some (trim e))
      /\ (match Gateway.CLAWDBOT_GATEWAY_PASSWORD amb with
          | Some e => trim e = []
          | None => True
          end ->
          Gateway.resolvedPassword opts amb =
            if Gateway.isRemoteMode amb
            then Gateway.trimmed
                   (match Gateway.remote amb with
                    | Some r => remote_password r
                    | None => None
                    end)
            else Gateway.trimmed (Gateway.authPassword amb))).
Proof.
  unfold Gateway.resolvedPassword. split.
  - intros p Hp. rewrite Hp. apply trimmed_nonempty in Hp.
    now rewrite !orElse_Some.
  - intros Hp. rewrite Hp, orElse_None. split.
    + intros e He Hne. rewrite He.
      change (option_map trim (Some e)) with (Some (trim e)).
      now rewrite orElse_Some.
    + intros He.
      destruct (Gateway.CLAWDBOT_GATEWAY_PASSWORD amb) as [e|].
      * change (option_map trim (Some e)) with (Some (trim e)).
        rewrite He. reflexivity.
      * reflexivity.
Qed.

Lemma resolvedPassword_precedence_witness :
  Gateway.resolvedPassword
    {| Gateway.url := None; Gateway.token := None;
       Gateway.password := Some (lit "  "); Gateway.timeoutMs := None |}
    {| Gateway.gateway := Some Sample.remoteGateway;
       Gateway.localPort := 18789;
       Gateway.tailnetIPv4 := None;
       Gateway.CLAWDBOT_GATEWAY_TOKEN := None;
       Gateway.CLAWDBOT_GATEWAY_PASSWORD := Some (lit " env-pass ") |}
  = Some (trim (lit " env-pass ")).
Proof.
  refine (proj1 (proj2 (resolvedPassword_precedence _ _) _) _ _ _);
    [reflexivity | reflexivity | discriminate].
Defined.

(** X19: a resolved token or password is never blank and carries no
    white space at either end, wherever it comes from. *)
Theorem credentials_are_trimmed
    (opts : Gateway.CallGatewayOptions) (amb : Gateway.Ambient) (s : JsString) :
  Gateway.resolvedToken opts amb = Some s
  \/ Gateway.resolvedPassword opts amb = Some s ->
  s <> [] /\ trim s = s.
Proof.
  assert (E : forall v, Gateway.trimmed v = Some s -> s <> [] /\ trim s = s)
    by (intros v; apply trimmed_is_trim).
  assert (V : forall o, option_map trim o = Some s -> s <> [] ->
                s <> [] /\ trim s = s).
  { intros [x|]; simpl; [|discriminate]. intros H Hn. injection H as <-.
    split; [exact Hn | apply trim_idempotent]. }
  unfold Gateway.resolvedToken, Gateway.resolvedPassword.
  intros [H | H].
  - destruct (orElse_cases (Gateway.trimmed (Gateway.token opts))
                (if Gateway.isRemoteMode amb
                 then Gateway.trimmed
                        match Gateway.remote amb with
                        | Some r => remote_token r
                        | None => None
                        end
                 else orElse
                        (option_map trim (Gateway.CLAWDBOT_GATEWAY_TOKEN amb))
                        (Gateway.trimmed (Gateway.authToken amb))))
      as [[x [Hx [_ R]]] | [_ R]]; rewrite R in H.
    + injection H as ->. exact (E _ Hx).
    + destruct (Gateway.isRemoteMode amb); [exact (E _ H)|].
      destruct (orElse_cases
                  (option_map trim (Gateway.CLAWDBOT_GATEWAY_TOKEN amb))
                  (Gateway.trimmed (Gateway.authToken amb)))
        as [[x [Hx [Hn R']]] | [_ R']]; rewrite R' in H.
      * injection H as ->. exact (V _ Hx Hn).
      * exact (E _ H).
  - destruct (orElse_cases
                (orElse (Gateway.trimmed (Gateway.password opts))
                   (option_map trim (Gateway.CLAWDBOT_GATEWAY_PASSWORD amb)))
                (if Gateway.isRemoteMode amb
                 then Gateway.trimmed
                        match Gateway.remote amb with
                        | Some r => remote_password r
                        | None => None
                        end
                 else Gateway.trimmed (Gateway.authPassword amb)))
      as [[x [Hx [Hn R]]] | [_ R]]; rewrite R in H.
    + injection H as ->.
      destruct (orElse_cases (Gateway.trimmed (Gateway.password opts))
                  (option_map trim (Gateway.CLAWDBOT_GATEWAY_PASSWORD amb)))
        as [[y [Hy [_ R']]] | [_ R']]; rewrite R' in Hx.
      * injection Hx as ->. exact (E _ Hy).
      * exact (V _ Hx Hn).
    + destruct (Gateway.isRemoteMode amb); exact (E _ H).
Qed.

Lemma credentials_are_trimmed_witness :
  lit "env-token" <> [] /\ trim (lit "env-token") = lit "env-token".
Proof.
  apply (@credentials_are_trimmed
           {| Gateway.url := None; Gateway.token := None;
              Gateway.password := None; Gateway.timeoutMs := None |}
           {| Gateway.gateway := None; Gateway.localPort := 18789;
              Gateway.tailnetIPv4 := None;
              Gateway.CLAWDBOT_GATEWAY_TOKEN := Some (lit "  env-token ");
              Gateway.CLAWDBOT_GATEWAY_PASSWORD := None |}).
  left. reflexivity.
Defined.

Lemma remoteUrl_truthy amb u :
  Gateway.remoteUrl amb = Some u -> truthyOpt (Some u) = true.
Proof.
  intros H. apply trimmed_nonempty in H. simpl. now apply truthy_nonempty.
Qed.

(** X14: the diagnostics name the branch the URL came from.  With an
    explicit URL, or else with a remote one, the source says so and
    neither the bind mode nor the fallback note is reported; otherwise
    the URL is the local one, the bind mode is reported, and the
    fallback note appears exactly in remote mode. *)
Theorem diagnostics_match_url
    (opts : Gateway.CallGatewayOptions) (amb : Gateway.Ambient) :
  (forall u, Gateway.urlOverride opts = Some u ->
     Gateway.resolvedUrl opts amb = u
     /\ Gateway.urlSource opts amb = lit "cli --url"
     /\ Gateway.bindDetail opts amb = None
     /\ Gateway.remoteFallbackNote opts amb = None)
  /\ (Gateway.urlOverride opts = None ->
      forall u, Gateway.remoteUrl amb = Some u ->
        Gateway.resolvedUrl opts amb = u
        /\ Gateway.urlSource opts amb = lit "config gateway.remote.url"
        /\ Gateway.bindDetail opts amb = None
        /\ Gateway.remoteFallbackNote opts amb = None)
  /\ (Gateway.urlOverride opts = None -> Gateway.remoteUrl amb = None ->
      Gateway.resolvedUrl opts amb = Gateway.localUrl amb
      /\ (Gateway.urlSource opts amb = lit "local loopback"
          /\ Gateway.localUrl amb = Gateway.loopbackUrl amb
          \/ exists ip,
               Gateway.tailnetIPv4 amb = Some ip
               /\ Gateway.urlSource opts amb = lit "local tailnet " ++ ip
               /\ Gateway.localUrl amb = Gateway.tailnetUrl amb ip)
      /\ Gateway.bindDetail opts amb
         = Some (lit "Bind: " ++ Gateway.bindMode amb)
      /\ (Gateway.remoteFallbackNote opts amb <> None
          <-> Gateway.isRemoteMode amb = true)).
Proof.
  unfold Gateway.resolvedUrl, Gateway.urlSource, Gateway.bindDetail,
    Gateway.remoteFallbackNote.
  split; [|split].
  - intros u Hu. rewrite Hu.
    assert (Ht : truthyOpt (Some u) = true).
    { apply trimmed_nonempty in Hu. simpl. now apply truthy_nonempty. }
    assert (Hn : u <> []) by now apply trimmed_nonempty in Hu.
    rewrite Ht, !orElse_Some by exact Hn. simpl.
    rewrite andb_false_r. auto.
  - intros Hu u Hr. rewrite Hu, Hr, orElse_None.
    pose proof (remoteUrl_truthy amb Hr) as Ht.
    assert (Hn : u <> []) by now apply trimmed_nonempty in Hr.
    rewrite Ht, orElse_Some by exact Hn. simpl.
    rewrite andb_false_r. auto.
  - intros Hu Hr. rewrite Hu, Hr. simpl. split; [reflexivity|]. split.
    + unfold Gateway.localUrl.
      destruct (Gateway.tailnetIPv4 amb) as [ip|]; [|now left].
      destruct (Gateway.preferTailnet amb && truthy ip); [right|now left].
      now exists ip.
    + split; [reflexivity|].
      rewrite !andb_true_r.
      destruct (Gateway.isRemoteMode amb); split; intros H;
        try reflexivity; try discriminate.
      now contradiction H.
Qed.

Lemma diagnostics_match_url_witness :
  let opts := {| Gateway.url := None; Gateway.token := None;
                 Gateway.password := None; Gateway.timeoutMs := None |} in
  let amb := {| Gateway.gateway := Some Sample.remoteGateway;
                Gateway.localPort := 18789;
                Gateway.tailnetIPv4 := None;
                Gateway.CLAWDBOT_GATEWAY_TOKEN := None;
                Gateway.CLAWDBOT_GATEWAY_PASSWORD := None |} in
  Gateway.resolvedUrl opts amb = lit "wss://gw.example:443"
  /\ Gateway.urlSource opts amb = lit "config gateway.remote.url"
  /\ Gateway.bindDetail opts amb = None
  /\ Gateway.remoteFallbackNote opts amb = None.
Proof.
  refine (proj1 (proj2 (diagnostics_match_url _ _)) _ _ _); reflexivity.
Defined.

(** X15: the connection details always open with the target line and
    the source line, in that order; the bind line and the fallback
    note follow, each on a line of its own, exactly when they are
    reported. *)
Theorem connectionDetails_lines
    (opts : Gateway.CallGatewayOptions) (amb : Gateway.Ambient) :
  Gateway.connectionDetails opts amb =
    lit "Gateway target: " ++ Gateway.resolvedUrl opts amb
    ++ Gateway.LF ++ lit "Source: " ++ Gateway.urlSource opts amb
    ++ match Gateway.bindDetail opts amb with
       | Some b => Gateway.LF ++ b
       | None => []
       end
    ++ match Gateway.remoteFallbackNote opts amb with
       | Some n => Gateway.LF ++ n
       | None => []
       end.
Proof.
  unfold Gateway.connectionDetails, Gateway.bindDetail,
    Gateway.remoteFallbackNote.
  destruct (negb (truthyOpt (Gateway.urlOverride opts))
            && negb (truthyOpt (Gateway.remoteUrl amb))) eqn:E.
  - assert (E' : Gateway.isRemoteMode amb
                 && negb (truthyOpt (Gateway.urlOverride opts))
                 && negb (truthyOpt (Gateway.remoteUrl amb))
                 = Gateway.isRemoteMode amb).
    { rewrite <- andb_assoc, E. apply andb_true_r. }
    rewrite E'. destruct (Gateway.isRemoteMode amb); simpl;
      rewrite <- ?app_assoc; simpl; rewrite ?app_nil_r; reflexivity.
  - assert (E' : Gateway.isRemoteMode amb
                 && negb (truthyOpt (Gateway.urlOverride opts))
                 && negb (truthyOpt (Gateway.remoteUrl amb)) = false).
    { rewrite <- andb_assoc, E. apply andb_false_r. }
    rewrite E'. simpl. rewrite <- ?app_assoc. simpl.
    rewrite ?app_nil_r. reflexivity.
Qed.

Lemma regroup (a b c d x : JsString) :
  a ++ b ++ c ++ d ++ x = (a ++ b ++ c ++ d) ++ x.
Proof. now rewrite <- !app_assoc. Qed.

(** X16: the close message reads the reason through [trim]: white space
    around it does not matter, and a reason of white space only reads
    as no reason at all. *)
Theorem close_reason_is_trimmed
    (opts : Gateway.CallGatewayOptions) (amb : Gateway.Ambient)
    (code : N) (reason : JsString) :
  Gateway.formatCloseError opts amb code reason
    = Gateway.formatCloseError opts amb code (trim reason)
  /\ (blank reason = true ->
      Gateway.formatCloseError opts amb code reason
        = Gateway.formatCloseError opts amb code []
      /\ exists head,
           Gateway.formatCloseError opts amb code []
           = head ++ lit "no close reason" ++ Gateway.LF
               ++ Gateway.connectionDetails opts amb).
Proof.
  unfold Gateway.formatCloseError. split.
  - now rewrite trim_idempotent.
  - intros H. apply trim_empty_iff_blank in H. rewrite H.
    change (trim []) with (@nil N). cbn [truthy]. split.
    + reflexivity.
    + eexists. apply regroup.
Qed.

Lemma close_reason_is_trimmed_witness :
  let opts := {| Gateway.url := None; Gateway.token := None;
                 Gateway.password := None; Gateway.timeoutMs := None |} in
  let amb := {| Gateway.gateway := None; Gateway.localPort := 18789;
                Gateway.tailnetIPv4 := None;
                Gateway.CLAWDBOT_GATEWAY_TOKEN := None;
                Gateway.CLAWDBOT_GATEWAY_PASSWORD := None |} in
  Gateway.formatCloseError opts amb 1006 (lit "  ")
    = Gateway.formatCloseError opts amb 1006 []
  /\ exists head,
       Gateway.formatCloseError opts amb 1006 []
       = head ++ lit "no close reason" ++ Gateway.LF
           ++ Gateway.connectionDetails opts amb.
Proof.
  refine (proj2 (close_reason_is_trimmed _ _ 1006 (lit "  ")) _).
  reflexivity.
Defined.

(** ** The promise, before and after it settles *)

Section MoreCallFacts.

Import Gateway.

Variables (T Thrown : Type).
Variable truthyThrown : Thrown -> bool.
Variable opts : CallGatewayOptions.
Variable amb : Ambient.

(** Nothing has reached [stop] yet. *)
Let Pending (st : CallState T Thrown) : Prop :=
  settled st = false /\ ignoreClose st = false /\ timerArmed st = true
  /\ clientStops st = 0 /\ settlements st = [].

(** [stop] has run once. *)
Let Done (st : CallState T Thrown) : Prop :=
  settled st = true /\ ignoreClose st = true /\ timerArmed st = false
  /\ 1 <= clientStops st /\ exists o, settlements st = [o].

Lemma step_pending_or_done (st : CallState T Thrown) ev :
  Pending st \/ Done st ->
  Pending (step truthyThrown opts amb st ev)
  \/ Done (step truthyThrown opts amb st ev).
Proof.
  unfold Pending, Done.
  destruct st as [se ig ti rq cs ss]. simpl.
  intros [[-> [-> [-> [-> ->]]]] | [-> [-> [-> [Hc [o ->]]]]]];
    destruct ev; simpl;
    unfold onRequestResult, onRequestError, onClose, onTimeout, stop; simpl;
    try (left; repeat split; reflexivity);
    try (right; repeat split; try reflexivity; try lia; eauto).
Qed.

Lemma run_pending_or_done evs (st : CallState T Thrown) :
  Pending st \/ Done st ->
  Pending (run truthyThrown opts amb evs st)
  \/ Done (run truthyThrown opts amb evs st).
Proof.
  revert st. induction evs as [|ev evs IH]; intros st H; simpl; auto.
  apply IH. now apply step_pending_or_done.
Qed.

Lemma step_settles (st : CallState T Thrown) ev o :
  Pending st -> settlementOf truthyThrown opts amb ev = Some o ->
  settlements (step truthyThrown opts amb st ev) = [o]
  /\ Consistent (step truthyThrown opts amb st ev).
Proof.
  unfold Pending, Consistent.
  destruct st as [se ig ti rq cs ss]. simpl.
  intros [-> [-> [-> [-> ->]]]].
  destruct ev; simpl; intros H; try discriminate; injection H as <-;
    unfold onRequestResult, onRequestError, onClose, onTimeout, stop; simpl;
    (split; [reflexivity | right; split; [reflexivity | eauto]]).
Qed.

Lemma hello_keeps_pending (st : CallState T Thrown) :
  Pending st -> Pending (step truthyThrown opts amb st (HelloOk T Thrown)).
Proof. intros H. exact H. Qed.

Lemma run_first_settling evs : forall st : CallState T Thrown,
  Pending st ->
  outcome (run truthyThrown opts amb evs st) =
  match firstSettling evs with
  | Some ev => settlementOf truthyThrown opts amb ev
  | None => None
  end.
Proof.
  induction evs as [|ev evs IH]; intros st H.
  - simpl. unfold outcome. destruct H as [_ [_ [_ [_ ->]]]]. reflexivity.
  - destruct (settlementOf truthyThrown opts amb ev) as [o|] eqn:E.
    + destruct (@step_settles st ev o H E) as [S C].
      assert (F : firstSettling (ev :: evs) = Some ev)
        by (destruct ev; try reflexivity; discriminate).
      rewrite F, E. simpl. unfold outcome.
      rewrite (@run_keeps _ _ truthyThrown opts amb evs _ o C).
      * now rewrite S.
      * unfold outcome. now rewrite S.
    + destruct ev; try discriminate. simpl. apply IH.
      now apply hello_keeps_pending.
Qed.

Lemma start_pending : Pending (start T Thrown).
Proof. repeat split. Qed.

End MoreCallFacts.

(** X17: after any events, either nothing has settled, and then the
    timer is still armed, the client has not been stopped and a close
    would be heeded, or the promise has its one outcome, and then the
    timer is cleared, the client has been stopped at least once and
    closes are ignored. *)
Theorem settled_call_is_cleaned_up
    (T Thrown : Type) (truthyThrown : Thrown -> bool)
    (opts : Gateway.CallGatewayOptions) (amb : Gateway.Ambient)
    (evs : list (Gateway.GwEvent T Thrown)) :
  let st := Gateway.run truthyThrown opts amb evs (Gateway.start T Thrown) in
  (Gateway.outcome st = None /\ Gateway.settled st = false
   /\ Gateway.ignoreClose st = false /\ Gateway.timerArmed st = true
   /\ Gateway.clientStops st = 0)
  \/ (exists o, Gateway.settlements st = [o] /\ Gateway.settled st = true
      /\ Gateway.ignoreClose st = true /\ Gateway.timerArmed st = false
      /\ 1 <= Gateway.clientStops st).
Proof.
  simpl.
  destruct (@run_pending_or_done T Thrown truthyThrown opts amb evs
              (Gateway.start T Thrown) (or_introl (start_pending T Thrown)))
    as [[H1 [H2 [H3 [H4 H5]]]] | [H1 [H2 [H3 [H4 [o H5]]]]]].
  - left. unfold Gateway.outcome. rewrite H5. auto.
  - right. exists o. auto.
Qed.

(** X18: the outcome is decided by the first event that is not a
    handshake acknowledgement, whatever comes after it: a response
    resolves with its value, a close or the timer rejects with the
    formatted message, a request error rejects with that error, unless
    the thrown value is falsy, in which case the promise resolves with
    no value; while only acknowledgements have arrived the promise is
    pending. *)
Theorem first_event_decides
    (T Thrown : Type) (truthyThrown : Thrown -> bool)
    (opts : Gateway.CallGatewayOptions) (amb : Gateway.Ambient)
    (evs : list (Gateway.GwEvent T Thrown)) :
  Gateway.outcome
    (Gateway.run truthyThrown opts amb evs (Gateway.start T Thrown))
  = match firstSettling evs with
    | Some ev => settlementOf truthyThrown opts amb ev
    | None => None
    end.
Proof.
  apply run_first_settling. apply start_pending.
Qed.

(** ** The calls of a whole delivery *)

Section Planned.

Variables (World Exn SendResult Other : Type).
Variable ext : Externals World Exn SendResult Other.
Variable params : Params World Exn SendResult Other.

Lemma failureFree_app (a b : list (Event Exn SendResult)) :
  failureFree (a ++ b) = failureFree a && failureFree b.
Proof. apply forallb_app. Qed.

Lemma quiet_failureFree (evs : list (Event Exn SendResult)) :
  quiet evs = true -> failureFree evs = true.
Proof.
  induction evs as [|ev evs IH]; simpl; auto.
  intros H. apply andb_prop in H as [H1 H2]. rewrite (IH H2).
  now destruct ev as [c [x|x]|p [x|x]|x p r].
Qed.

Lemma clean_failureFree A (evs : list (Event Exn SendResult))
    (r : Completion Exn A) :
  Clean evs r -> failureFree evs = true -> exists a, r = Normal a.
Proof.
  destruct r as [a|e]; simpl; [now exists a|].
  intros [pre [fail [-> [_ Hf]]]] H.
  rewrite failureFree_app in H. apply andb_prop in H as [_ H].
  simpl in H. now rewrite Hf in H.
Qed.

Lemma plannedCalls_texts payload :
  map call_text (plannedCalls ext params payload)
  = plannedTexts ext params payload.
Proof.
  unfold plannedCalls, plannedTexts, textCalls, mediaCalls, textLimit,
    chunker.
  destruct (mediaUrls payload) as [|u rest].
  - destruct (resolveChunker (p_provider params)); [|reflexivity].
    destruct (resolveTextChunkLimit ext (cfg params) (p_provider params));
      [|reflexivity].
    rewrite map_map. apply map_id.
  - simpl. rewrite Nat.sub_0_r, map_map. f_equal.
    induction rest as [|a rest IH]; [reflexivity|].
    change (call_text (sendCall ext params [] (Some a))
              :: map (fun x => call_text (sendCall ext params [] (Some x)))
                   rest
            = [] :: repeat [] (length rest)).
    now rewrite IH.
Qed.

(** The sends of a [try] block after its [onPayload] call. *)
Lemma sends_planned payload s :
  let body :=
    match mediaUrls payload with
    | [] => sendTextChunks ext params (text payload)
    | urls => sendMediaLoop ext params (text payload) true urls
    end in
  exists evs,
    trace (fst (body s)) = trace s ++ evs
    /\ (exists k, sendCallsOf evs = firstn k (plannedCalls ext params payload))
    /\ (snd (body s) = Normal tt ->
        sendCallsOf evs = plannedCalls ext params payload)
    /\ (SendsReturn ext params -> snd (body s) = Normal tt).
Proof.
  simpl. unfold plannedCalls.
  destruct (mediaUrls payload) as [|u rest] eqn:Hm.
  - rewrite sendTextChunks_forEach.
    assert (E : textCalls ext params payload
                = map (fun t => sendCall ext params t None)
                    (textsToSend ext params (text payload))).
    { unfold textCalls, textsToSend.
      destruct (chunker params); [destruct (textLimit ext params)|];
        reflexivity. }
    rewrite E. apply forEach_sendText_calls.
  - destruct (sendMediaLoop_calls ext params (text payload) (u :: rest)
                true s) as [evs [T [K [_ [N L]]]]].
    exists evs. unfold mediaCalls. rewrite Hm. auto.
Qed.

Lemma tryBody_planned payload s :
  let out := tryBody ext params payload s in
  exists evs,
    trace (fst out) = trace s ++ evs
    /\ (exists k, sendCallsOf evs = firstn k (plannedCalls ext params payload))
    /\ (snd out = Normal tt ->
        sendCallsOf evs = plannedCalls ext params payload)
    /\ (SendsReturn ext params -> OnPayloadReturns params ->
        snd out = Normal tt)
    /\ Clean evs (snd out).
Proof.
  simpl.
  destruct (@emits_tryBody _ _ _ _ ext params (fun _ => True)
              (fun _ _ => I) payload s) as [evs' [T' [_ [_ C]]]].
  assert (X : exists evs,
             trace (fst (tryBody ext params payload s)) = trace s ++ evs
             /\ (exists k, sendCallsOf evs
                           = firstn k (plannedCalls ext params payload))
             /\ (snd (tryBody ext params payload s) = Normal tt ->
                 sendCallsOf evs = plannedCalls ext params payload)
             /\ (SendsReturn ext params -> OnPayloadReturns params ->
                 snd (tryBody ext params payload s) = Normal tt)).
  { unfold tryBody, bind.
    destruct (callOnPayload_run params payload s) as [evs0 [T0 [S0 L0]]].
    destruct (callOnPayload params payload s) as [s1 [[]|e]]; simpl in *.
    - destruct (sends_planned payload s1) as [evs [T [K [N L]]]].
      simpl in *. exists (evs0 ++ evs).
      rewrite T, T0, sendCallsOf_app, S0, app_assoc. simpl.
      split; [reflexivity|]. split; [exact K|]. split; [exact N|].
      intros H _. now apply L.
    - exists evs0. rewrite S0. split; [exact T0|].
      split; [now exists 0|]. split; [discriminate|].
      intros _ H. specialize (L0 H). discriminate. }
  destruct X as [evs [T [K [N L]]]].
  assert (E : evs = evs').
  { rewrite T in T'. now apply app_inv_head in T'. }
  subst evs'. exists evs. auto.
Qed.

Lemma deliverOne_planned payload s :
  let out := deliverOne ext params payload s in
  exists seg,
    trace (fst out) = trace s ++ seg
    /\ (exists k, sendCallsOf seg = firstn k (plannedCalls ext params payload))
    /\ (failureFree seg = true ->
        sendCallsOf seg = plannedCalls ext params payload)
    /\ (SendsReturn ext params -> OnPayloadReturns params ->
        snd out = Normal tt /\ failureFree seg = true).
Proof.
  simpl. unfold deliverOne, tryCatch.
  destruct (tryBody_planned payload s) as [evs [T [K [N [L C]]]]].
  destruct (tryBody ext params payload s) as [s1 [[]|e]]; simpl in *.
  - exists evs. split; [exact T|]. split; [exact K|].
    split; [intros _; now apply N|].
    intros _ _. split; [reflexivity | now apply quiet_failureFree].
  - destruct (@calls_catchBody _ _ _ _ params (fun _ => True)
                payload e s1) as [evs2 [T2 _]].
    assert (S2 : sendCallsOf evs2 = []).
    { revert T2. unfold catchBody, callOnError, throw.
      destruct (isBestEffort params);
        [destruct (onError params) as [f|]|]; simpl.
      - destruct (f e payload (world s1)) as [w r]. simpl.
        intros H. apply app_inv_head in H. now subst evs2.
      - rewrite <- (app_nil_r (trace s1)) at 1.
        intros H. apply app_inv_head in H. now subst evs2.
      - rewrite <- (app_nil_r (trace s1)) at 1.
        intros H. apply app_inv_head in H. now subst evs2. }
    exists (evs ++ evs2).
    rewrite T2, T, sendCallsOf_app, S2, app_nil_r, app_assoc.
    split; [reflexivity|]. split; [exact K|]. split.
    + intros H. rewrite failureFree_app in H.
      apply andb_prop in H as [H _].
      destruct (@clean_failureFree unit evs (Throw e) C H) as [a Ha].
      discriminate.
    + intros H1 H2. specialize (L H1 H2). discriminate.
Qed.

Lemma deliverLoop_planned ps : forall s,
  let out := deliverLoop ext params ps s in
  exists segs,
    trace (fst out) = trace s ++ concat segs
    /\ Forall2
         (fun p seg =>
            (exists k, sendCallsOf seg = firstn k (plannedCalls ext params p))
            /\ (failureFree seg = true ->
                sendCallsOf seg = plannedCalls ext params p))
         (firstn (length segs) ps) segs
    /\ (SendsReturn ext params -> OnPayloadReturns params ->
        snd out = Normal tt
        /\ length segs = length ps
        /\ Forall (fun seg => failureFree seg = true) segs
        /\ sendCallsOf (concat segs)
           = flat_map (plannedCalls ext params) ps).
Proof.
  unfold deliverLoop.
  induction ps as [|p rest IH]; intros s; simpl.
  - exists []. simpl. rewrite app_nil_r. repeat split; auto.
  - unfold bind.
    destruct (deliverOne_planned p s) as [seg [T [K [N L]]]].
    destruct (deliverOne ext params p s) as [s1 [[]|e]]; simpl in *.
    + destruct (IH s1) as [segs [T' [F L']]].
      exists (seg :: segs). simpl.
      rewrite T', T, <- app_assoc.
      split; [reflexivity|]. split; [constructor; auto|].
      intros H1 H2. destruct (L H1 H2) as [_ Hq].
      destruct (L' H1 H2) as [Hn [Hl [Hf Hc]]].
      split; [exact Hn|]. split; [now rewrite Hl|].
      split; [constructor; auto|].
      now rewrite sendCallsOf_app, Hc, (N Hq).
    + exists [seg]. simpl. rewrite app_nil_r.
      split; [exact T|]. split; [constructor; auto|].
      intros H1 H2. destruct (L H1 H2) as [Hn _]. discriminate.
Qed.

End Planned.




(** C8: among the providers a delivery can name, telegram alone gets
    the markdown splitter, whatsapp, signal and imessage the plain one,
    discord and slack none; the choice reads the provider only.  The
    limit of a call is the configured limit of its provider when the
    provider has a splitter, and is not resolved otherwise.  Without a
    splitter a text goes out as one send, whatever splitter or limit
    the configuration would give; with a splitter and a configured
    limit its sends are the splitter's chunks for that limit.  When
    nothing throws, the texts sent by a whole delivery are, payload by
    payload, these chunks (the whole text without a splitter or a
    limit), media payloads being sent by caption. *)
Theorem chunker_policy
    (World Exn SendResult Other : Type)
    (ext : Externals World Exn SendResult Other)
    (params : Params World Exn SendResult Other) (w : World) :
  filter (fun p => match resolveChunker p with
                   | Some chunkMarkdownText => true
                   | _ => false
                   end) providers = [telegram]
  /\ filter (fun p => match resolveChunker p with
                      | Some chunkText => true
                      | _ => false
                      end) providers = [whatsapp; signal; imessage]
  /\ filter (fun p => match resolveChunker p with
                      | None => true
                      | _ => false
                      end) providers = [discord; slack]
  /\ chunker params = resolveChunker (p_provider params)
  /\ textLimit ext params =
       match resolveChunker (p_provider params) with
       | Some _ =>
           resolveTextChunkLimit ext (cfg params) (p_provider params)
       | None => None
       end
  /\ (resolveChunker (p_provider params) = None ->
      forall apply' limit' text s,
        sendTextChunks (withChunking ext apply' limit') params text s
        = send ext params text None s)
  /\ (forall c limit,
        resolveChunker (p_provider params) = Some c ->
        resolveTextChunkLimit ext (cfg params) (p_provider params)
          = Some limit ->
        forall text s,
          sendTextChunks ext params text s
          = forEach (sendText ext params) (applyChunker ext c text limit) s)
  /\ (SendsReturn ext params -> OnPayloadReturns params ->
      map call_text
        (sendCallsOf (trace (fst (deliverOutboundPayloads ext params w))))
      = flat_map (plannedTexts ext params)
          (normalizeOutboundPayloads (payloads params))).
Proof.
  split; [reflexivity|]. split; [reflexivity|]. split; [reflexivity|].
  split; [reflexivity|]. split; [reflexivity|]. split; [|split].
  - intros H apply' limit' text s. unfold sendTextChunks, chunker.
    rewrite H. now rewrite <- sendText_send.
  - intros c limit H H0 text s.
    unfold sendTextChunks, textLimit, chunker. now rewrite H, H0.
  - intros H1 H2. unfold deliverOutboundPayloads.
    destruct (deliverLoop_planned ext params
                (normalizeOutboundPayloads (payloads params)) (initial w))
      as [segs [T [_ L]]].
    destruct (L H1 H2) as [_ [_ [_ Hc]]].
    assert (X : map call_text
                  (sendCallsOf
                     (trace
                        (fst (deliverLoop ext params
                                (normalizeOutboundPayloads (payloads params))
                                (initial w)))))
                = flat_map (plannedTexts ext params)
                    (normalizeOutboundPayloads (payloads params))).
    { assert (G : forall ps,
                 map call_text (flat_map (plannedCalls ext params) ps)
                 = flat_map (plannedTexts ext params) ps).
      { induction ps as [|p ps IH]; [reflexivity|].
        simpl. now rewrite map_app, plannedCalls_texts, IH. }
      rewrite T. simpl. rewrite Hc. apply G. }
    destruct (deliverLoop _ _ _ _) as [s [[]|e]]; exact X.
Qed.

Lemma chunker_policy_witness :
  let ext := Sample.ext Sample.neverFails in
  let chunked := Sample.call telegram [Sample.textOnly "abcd"] None in
  let whole := Sample.call slack [Sample.textOnly "abcd"] None in
  map call_text
    (sendCallsOf (trace (fst (deliverOutboundPayloads ext chunked 0))))
  = [lit "ab"; lit "cd"]
  /\ map call_text
       (sendCallsOf (trace (fst (deliverOutboundPayloads ext whole 0))))
     = [lit "abcd"]
  /\ forall apply' limit' text s,
       sendTextChunks (withChunking ext apply' limit') whole text s
       = send ext whole text None s.
Proof.
  cbv zeta.
  assert (S : forall p ps,
             SendsReturn (Sample.ext Sample.neverFails)
               (Sample.call p ps None)).
  { intros p ps t o x. eexists. eexists. now destruct p. }
  assert (P : forall p ps, OnPayloadReturns (Sample.call p ps None)).
  { intros p ps f E. discriminate E. }
  split; [|split].
  - rewrite (proj2 (proj2 (proj2 (proj2 (proj2 (proj2 (proj2
               (@chunker_policy _ _ _ _ (Sample.ext Sample.neverFails)
                  (Sample.call telegram [Sample.textOnly "abcd"] None) 0)))))))
               (S _ _) (P _ _)).
    reflexivity.
  - rewrite (proj2 (proj2 (proj2 (proj2 (proj2 (proj2 (proj2
               (@chunker_policy _ _ _ _ (Sample.ext Sample.neverFails)
                  (Sample.call slack [Sample.textOnly "abcd"] None) 0)))))))
               (S _ _) (P _ _)).
    reflexivity.
  - apply (proj1 (proj2 (proj2 (proj2 (proj2 (proj2
             (@chunker_policy _ _ _ _ (Sample.ext Sample.neverFails)
                (Sample.call slack [Sample.textOnly "abcd"] None) 0))))))).
    reflexivity.
Defined.
